(** * MinimizatorsCollection: the orchestration layer of FibrosisOptimization

    A shallow embedding of
    [src/fibrosisoptimization/minimizators/minimizators_collection.py]
    and the properties of its construction, accessors, per-unit update and
    whole-collection update.

    Modelling choices, all read off the source:
    - numpy arrays are mutable objects: they live in a store ([arrays]) and
      are passed by reference ([loc]); [densities.copy()] allocates;
    - Python indexing accepts negative indices (counted from the end) and
      raises [IndexError] out of range;
    - a local variable that no branch assigned is [None] in an [option];
      reading it raises [UnboundLocalError];
    - [print] appends to [stdout] (the values are kept unformatted);
    - the element type of the arrays and its unary minus are abstract
      ([V], [neg]): nothing in this file depends on floating point;
    - [Minimizator] is defined in another module: its constructor and its
      [update] method are the Section variables [unit_init] and
      [unit_update], over an abstract internal state [St]. *)

From stdpp Require Import gmap strings list fin_maps.

Set Implicit Arguments.

(** ** Python exceptions and results *)

Inductive PyError : Set :=
  | UnboundLocalError   (* a local variable read before assignment *)
  | IndexError          (* index out of bounds *)
  | DeadReference.      (* a reference to no array: no Python caller can
                           produce one; it only makes the store total *)

Inductive Result (A : Type) : Type :=
  | Ok (a : A)
  | Raise (e : PyError).

Arguments Ok {A} a.
Arguments Raise {A} e.

#[global] Instance PyError_eq_dec : EqDecision PyError.
Proof. solve_decision. Defined.

(** ** Python indexing of a sequence of length [n] *)

Definition py_index (n : nat) (i : Z) : option nat :=
  if decide (0 ≤ i < Z.of_nat n)%Z then Some (Z.to_nat i)
  else if decide (- Z.of_nat n ≤ i < 0)%Z then Some (Z.to_nat (Z.of_nat n + i))
  else None.

(** [a[i]] *)
Definition getitem {A : Type} (a : list A) (i : Z) : Result A :=
  match py_index (length a) i with
  | Some k => match a !! k with Some x => Ok x | None => Raise IndexError end
  | None => Raise IndexError
  end.

(** [a[i] = x], on the contents of the array *)
Definition setitem {A : Type} (a : list A) (i : Z) (x : A) : Result (list A) :=
  match py_index (length a) i with
  | Some k => Ok (<[k:=x]> a)
  | None => Raise IndexError
  end.

(** References to arrays. *)
Abbreviation loc := positive.

Section Collection.

(** The element type of the arrays (numpy floats in the source) and its
    unary minus. *)
Variable V : Type.
Variable neg : V → V.

(** The literal [0.01], default of [density_step_tol]. *)
Variable tol_default : V.

(** The collaborator [Minimizator]: its internal calibration state, what
    its constructor [Minimizator(segment, value_name)] initialises it to,
    and its method [update(density, value)], which returns the new density
    and may change the internal state. *)
Variable St : Type.
Variable unit_init : Z → string → St.
Variable unit_update : Z → string → St → V → V → St * V.

Record Minimizator : Type := mkMinimizator {
  segment : Z;
  value_name : string;
  calib : St
}.

(** [Minimizator(segment, value_name)] *)
Definition new_Minimizator (s : Z) (name : string) : Minimizator :=
  {| segment := s; value_name := name; calib := unit_init s name |}.

(** [minimizator.update(density, value)]: the unit after the call and the
    returned density. What the collection relies on: the call returns a
    density, keeps the unit's [segment] and [value_name], raises nothing
    and touches no array. *)
Definition Minimizator_update (m : Minimizator) (density value : V)
  : Minimizator * V :=
  let '(st, density_new) :=
    unit_update (segment m) (value_name m) (calib m) density value in
  ({| segment := segment m; value_name := value_name m; calib := st |},
   density_new).

Record SurfaceData : Type := mkSurfaceData {
  ptp_mean_per_segment : list V;
  lat_mean_per_segment : list V
}.

(** The three lines printed per unit. *)
Inductive Line : Type :=
  | SegmentLine (s : Z)                       (* 'SEGMENT : {}' *)
  | ValueLine (name : string) (value : V)     (* '    {} : {:.3f}' *)
  | DensityLine (density density_new : V).    (* 'DENSITY : {:.3f} --> {:.3f}' *)

(** The mutable world: the store of arrays and the standard output. *)
Record World : Type := mkWorld {
  arrays : gmap positive (list V);
  stdout : list Line
}.

Record MinimizatorsCollection : Type := mkCollection {
  density_step_tol : V;
  minimizators : list Minimizator
}.

(** ** The state and exception monad of the method bodies *)

Definition M (A : Type) : Type := World → World * Result A.

Definition ret {A : Type} (a : A) : M A := λ w, (w, Ok a).

Definition bind {A B : Type} (c : M A) (k : A → M B) : M B :=
  λ w, match c w with
       | (w1, Ok a) => k a w1
       | (w1, Raise e) => (w1, Raise e)
       end.

Notation "'do' x <- c ; k" := (bind c (λ x, k))
  (at level 10, x pattern, c at level 100, k at level 200, only parsing).

Definition lift {A : Type} (r : Result A) : M A := λ w, (w, r).

(** [print(...)] *)
Definition print (l : Line) : M unit :=
  λ w, ({| arrays := arrays w; stdout := stdout w ++ [l] |}, Ok tt).

(** Contents of the array a reference points to. *)
Definition deref (l : loc) : M (list V) :=
  λ w, match arrays w !! l with
       | Some a => (w, Ok a)
       | None => (w, Raise DeadReference)
       end.

(** [a[i]] for an array in the store *)
Definition load (l : loc) (i : Z) : M V :=
  do a <- deref l; lift (getitem a i).

(** [a[i] = x] for an array in the store: in place *)
Definition store (l : loc) (i : Z) (x : V) : M unit :=
  do a <- deref l;
  do a' <- lift (setitem a i x);
  λ w, ({| arrays := <[l:=a']> (arrays w); stdout := stdout w |}, Ok tt).

(** [a.copy()]: a new array with the same contents *)
Definition copy (l : loc) : M loc :=
  do a <- deref l;
  λ w, let l' := fresh (dom (arrays w)) in
       ({| arrays := <[l':=a]> (arrays w); stdout := stdout w |}, Ok l').

(** ** MinimizatorsCollection *)

(** [make_minimizators]: the loop over [zip(segments, value_names)]
    appending to an empty list. *)
Definition make_minimizators (segments : list Z) (value_names : list string)
  : list Minimizator :=
  foldl (λ minimizators '(segment, value_name),
           minimizators ++ [new_Minimizator segment value_name])
        [] (zip segments value_names).

(** [__init__]; [None] for an omitted [density_step_tol]. *)
Definition init (segments : list Z) (value_names : list string)
    (tol : option V) : MinimizatorsCollection :=
  {| density_step_tol := default tol_default tol;
     minimizators := make_minimizators segments value_names |}.

(** The property [segments] *)
Definition segments (self : MinimizatorsCollection) : list Z :=
  (λ minimizator, segment minimizator) <$> minimizators self.

(** The property [value_names] *)
Definition value_names (self : MinimizatorsCollection) : list string :=
  (λ minimizator, value_name minimizator) <$> minimizators self.

(** [update_minimizator]: returns the unit after its [update] and the pair
    [(density, density_new)]. The local [values] is unbound until one of the
    two tests assigns it. *)
Definition update_minimizator (minimizator : Minimizator) (densities : loc)
    (surface_data : SurfaceData) : M (Minimizator * (V * V)) :=
  let values : option (list V) := None in
  let values :=
    if decide (value_name minimizator = "PtP"%string)
    then Some (ptp_mean_per_segment surface_data) else values in
  let values :=
    if decide (value_name minimizator = "LAT"%string)
    then Some (neg <$> lat_mean_per_segment surface_data) else values in
  let segment_ind := (segment minimizator - 1)%Z in
  do values <- lift (match values with
                     | Some a => Ok a
                     | None => Raise UnboundLocalError
                     end);
  do value <- lift (getitem values segment_ind);
  do density <- load densities segment_ind;
  let '(minimizator', density_new) :=
    Minimizator_update minimizator density value in
  do _ <- print (SegmentLine (segment minimizator'));
  do _ <- print (ValueLine (value_name minimizator') value);
  do _ <- print (DensityLine density density_new);
  ret (minimizator', (density, density_new)).

(** The body of the [for] loop of [update], for one unit. *)
Definition update_step (minimizator : Minimizator) (densities : loc)
    (surface_data : SurfaceData) : M Minimizator :=
  do r <- update_minimizator minimizator densities surface_data;
  let '(minimizator', (density, density_new)) := r in
  do _ <- store densities (segment minimizator' - 1)%Z density_new;
  ret minimizator'.

(** The [for] loop of [update] over the units still to process. The list
    returned holds the units as the loop leaves them: those processed carry
    their new internal state, also when a later one raises; the one that
    raises is as it was, since every exception of the loop body comes
    before the call of its [update] ([update_step_Raise] below). *)
Fixpoint update_loop (ms : list Minimizator) (densities : loc)
    (surface_data : SurfaceData) (w : World)
  : World * (list Minimizator * Result unit) :=
  match ms with
  | [] => (w, ([], Ok tt))
  | minimizator :: rest =>
    match update_step minimizator densities surface_data w with
    | (w1, Raise e) => (w1, (minimizator :: rest, Raise e))
    | (w1, Ok minimizator') =>
      let '(w2, (rest', r)) := update_loop rest densities surface_data w1 in
      (w2, (minimizator' :: rest', r))
    end
  end.

(** What a call of [update] leaves: the world, the collection (its units
    mutated) and the returned reference or the exception. *)
Record Outcome : Type := mkOutcome {
  world_after : World;
  self_after : MinimizatorsCollection;
  returned : Result loc
}.

(** [update] *)
Definition update (self : MinimizatorsCollection) (densities : loc)
    (surface_data : SurfaceData) (w : World) : Outcome :=
  match copy densities w with
  | (w1, Raise e) =>
    {| world_after := w1; self_after := self; returned := Raise e |}
  | (w1, Ok densities') =>
    let '(w2, (ms, r)) :=
      update_loop (minimizators self) densities' surface_data w1 in
    {| world_after := w2;
       self_after := {| density_step_tol := density_step_tol self;
                        minimizators := ms |};
       returned := match r with Ok _ => Ok densities' | Raise e => Raise e end |}
  end.

(** The contents of the vector a call returned. *)
Definition output (o : Outcome) : Result (list V) :=
  match returned o with
  | Ok l => match arrays (world_after o) !! l with
            | Some a => Ok a
            | None => Raise DeadReference
            end
  | Raise e => Raise e
  end.

(** ** Vocabulary of the statements *)

(** The measurement array a channel tag selects: what the two tests of
    [update_minimizator] leave in [values]. *)
Definition selected (name : string) (surface_data : SurfaceData)
  : option (list V) :=
  if decide (name = "LAT"%string)
  then Some (neg <$> lat_mean_per_segment surface_data)
  else if decide (name = "PtP"%string)
  then Some (ptp_mean_per_segment surface_data)
  else None.

(** The channel tags the collection knows. *)
Definition known_channel (name : string) : Prop :=
  name = "PtP"%string ∨ name = "LAT"%string.

(** [i] is an index Python accepts for a sequence of length [n]. *)
Definition valid_index (n : nat) (i : Z) : Prop :=
  (- Z.of_nat n ≤ i < Z.of_nat n)%Z.

(** The unit's index is valid for a density vector of length [n] and for
    the measurement array of its channel. *)
Definition in_range (surface_data : SurfaceData) (n : nat)
    (m : Minimizator) : Prop :=
  valid_index n (segment m - 1) ∧
  ∀ values, selected (value_name m) surface_data = Some values →
            valid_index (length values) (segment m - 1).

(** The pair [(density, density_new)] of the unit [m] when the loop reaches
    it after the units [before], from the world [w] with the working copy
    at [densities]. *)
Definition produced (before : list Minimizator) (m : Minimizator)
    (densities : loc) (surface_data : SurfaceData) (w : World)
  : Result (V * V) :=
  match update_loop before densities surface_data w with
  | (w1, (_, Ok _)) =>
    match update_minimizator m densities surface_data w1 with
    | (_, Ok (_, densities_pair)) => Ok densities_pair
    | (_, Raise e) => Raise e
    end
  | (_, (_, Raise e)) => Raise e
  end.

(** The density a unit's [update] returns does not depend on the unit's
    internal state. *)
Definition deterministic_unit : Prop :=
  ∀ s name st1 st2 density value,
    (unit_update s name st1 density value).2
    = (unit_update s name st2 density value).2.

(** Two units with the same segment and channel. *)
Definition same_unit (m1 m2 : Minimizator) : Prop :=
  segment m1 = segment m2 ∧ value_name m1 = value_name m2.

(** The lines a unit prints. *)
Definition report (m : Minimizator) (value density density_new : V)
  : list Line :=
  [SegmentLine (segment m); ValueLine (value_name m) value;
   DensityLine density density_new].

End Collection.

Arguments SegmentLine {V} s.
Arguments segment {St} m.
Arguments value_name {St} m.
Arguments calib {St} m.
Arguments same_unit {St} m1 m2.
Arguments in_range {V} neg {St} surface_data n m.

(** ** A concrete instance, for the examples: integer arrays, units that
    count their calls *)

Module Sample.

(** A unit whose new density is [density + value]; it counts its calls. *)
Definition adder (s : Z) (name : string) (calls : nat) (density value : Z)
  : nat * Z := (S calls, (density + value)%Z).

(** A unit whose new density depends on how often it was called. *)
Definition drifting (s : Z) (name : string) (calls : nat) (density value : Z)
  : nat * Z := (S calls, (density + value + Z.of_nat calls)%Z).

Definition fresh_unit (s : Z) (name : string) : nat := 0.

Definition collection (segs : list Z) (names : list string)
  : MinimizatorsCollection Z nat :=
  init 1%Z fresh_unit segs names None.

Definition surface : SurfaceData Z :=
  {| ptp_mean_per_segment := [12; 0]%Z; lat_mean_per_segment := [0; 8]%Z |}.

(** The caller's vector [[5; 5]] at reference [1]. *)
Definition world : World Z :=
  {| arrays := {[ 1%positive := [5; 5]%Z ]}; stdout := [] |}.

Definition ptp_unit : Minimizator nat :=
  {| segment := 1; value_name := "PtP"; calib := 0 |}.
Definition lat_unit : Minimizator nat :=
  {| segment := 2; value_name := "LAT"; calib := 0 |}.

Definition one_unit := collection [1]%Z ["PtP"]%string.
Definition two_units := collection [1; 2]%Z ["PtP"; "LAT"]%string.
Definition shared_segment := collection [1; 1]%Z ["PtP"; "PtP"]%string.
Definition far_segment := collection [5]%Z ["PtP"]%string.
Definition unknown_tag := collection [1; 2]%Z ["PtP"; "APD"]%string.
Definition segment_zero := collection [0]%Z ["LAT"]%string.

Definition apd_unit : Minimizator nat :=
  {| segment := 2; value_name := "APD"; calib := 0 |}.
Definition zero_unit : Minimizator nat :=
  {| segment := 0; value_name := "LAT"; calib := 0 |}.
Definition far_unit : Minimizator nat :=
  {| segment := 5; value_name := "PtP"; calib := 0 |}.

Definition second_far := collection [1; 5]%Z ["PtP"; "PtP"]%string.
Definition two_units_swapped := collection [2; 1]%Z ["LAT"; "PtP"]%string.

End Sample.

(** ** Reading the standard output *)

(** The segments of the ['SEGMENT : {}'] lines, in the order printed. *)
Definition printed_segments {V : Type} (lines : list (Line V)) : list Z :=
  omap (λ l, match l with SegmentLine s => Some s | _ => None end) lines.

(** The lines the units [ms] print, one after the other, when the [i]-th
    unit's [update] is called with the measured value and the density of
    the [i]-th pair of [calls]. *)
Definition reports {V St : Type}
    (unit_update : Z → string → St → V → V → St * V)
    (ms : list (Minimizator St)) (calls : list (V * V)) : list (Line V) :=
  mjoin (zip_with
           (λ m call,
              report m call.1 call.2
                (Minimizator_update unit_update m call.2 call.1).2)
           ms calls).

(** * Properties *)

Unset Implicit Arguments.

(** ** Python indexing *)

Lemma py_index_valid (n : nat) (i : Z) :
  is_Some (py_index n i) ↔ valid_index n i.
Proof.
  unfold py_index, valid_index.
  repeat case_decide; split; intros Hv; try lia; eauto.
  by destruct Hv.
Qed.

Lemma py_index_lt (n : nat) (i : Z) (k : nat) :
  py_index n i = Some k → k < n.
Proof.
  unfold py_index. repeat case_decide; intros [= <-]; lia.
Qed.

(** A segment identifier [s ≥ 1] addresses the plain position [s - 1]. *)
Lemma py_index_segment (n : nat) (s : Z) (k : nat) :
  (1 ≤ s)%Z → py_index n (s - 1) = Some k → k = Z.to_nat (s - 1).
Proof.
  unfold py_index. intros Hs. repeat case_decide; intros [= <-]; lia.
Qed.

Lemma py_index_segment_ne (n : nat) (s1 s2 : Z) (k : nat) :
  (1 ≤ s1)%Z → (1 ≤ s2)%Z → s1 ≠ s2 →
  py_index n (s1 - 1) = Some k → py_index n (s2 - 1) ≠ Some k.
Proof.
  intros H1 H2 Hne Hk1 Hk2.
  apply py_index_segment in Hk1, Hk2; lia.
Qed.

Lemma getitem_Ok {A : Type} (a : list A) (i : Z) (x : A) :
  getitem a i = Ok x ↔ ∃ k, py_index (length a) i = Some k ∧ a !! k = Some x.
Proof.
  unfold getitem. split.
  - destruct (py_index (length a) i) as [k|] eqn:Hk; [|done].
    destruct (a !! k) as [y|] eqn:Hy; [|done].
    intros [= <-]. eauto.
  - intros (k & -> & ->). done.
Qed.

Lemma getitem_Raise {A : Type} (a : list A) (i : Z) (e : PyError) :
  getitem a i = Raise e → e = IndexError ∧ ¬ valid_index (length a) i.
Proof.
  unfold getitem. destruct (py_index (length a) i) as [k|] eqn:Hk.
  - destruct (lookup_lt_is_Some_2 a k (py_index_lt _ _ _ Hk)) as [x ->]. done.
  - intros [= <-]. split; [done|].
    rewrite <-py_index_valid, Hk. by intros [? ?].
Qed.

Lemma getitem_valid {A : Type} (a : list A) (i : Z) :
  valid_index (length a) i → ∃ x, getitem a i = Ok x.
Proof.
  intros [k Hk]%py_index_valid.
  destruct (lookup_lt_is_Some_2 a k (py_index_lt _ _ _ Hk)) as [x Hx].
  exists x. apply getitem_Ok. eauto.
Qed.

Lemma getitem_fmap {A B : Type} (f : A → B) (a : list A) (i : Z) :
  getitem (f <$> a) i
  = match getitem a i with Ok x => Ok (f x) | Raise e => Raise e end.
Proof.
  unfold getitem. rewrite length_fmap.
  destruct (py_index (length a) i) as [k|]; [|done].
  rewrite list_lookup_fmap. by destruct (a !! k).
Qed.

Section Properties.

Context {V : Type} (neg : V → V).
Context {St : Type} (unit_update : Z → string → St → V → V → St * V).

Implicit Types (m u : Minimizator St) (ms : list (Minimizator St)).
Implicit Types (w : World V) (sd : SurfaceData V) (D : list V).
Implicit Types (c d : loc) (self : MinimizatorsCollection V St).

(** ** The per-unit update, as one equation *)

Lemma Minimizator_update_same m density value :
  same_unit m (Minimizator_update unit_update m density value).1.
Proof.
  unfold Minimizator_update, same_unit.
  by destruct (unit_update _ _ _ _ _).
Qed.

Lemma update_minimizator_eq m c sd w :
  update_minimizator neg unit_update m c sd w =
  match selected neg (value_name m) sd with
  | None => (w, Raise UnboundLocalError)
  | Some values =>
    match getitem values (segment m - 1) with
    | Raise e => (w, Raise e)
    | Ok value =>
      match arrays w !! c with
      | None => (w, Raise DeadReference)
      | Some D =>
        match getitem D (segment m - 1) with
        | Raise e => (w, Raise e)
        | Ok density =>
          let r := Minimizator_update unit_update m density value in
          ({| arrays := arrays w;
              stdout := stdout w ++ report m value density r.2 |},
           Ok (r.1, (density, r.2)))
        end
      end
    end
  end.
Proof.
  unfold update_minimizator, selected, load, deref, bind, lift, ret, print.
  destruct (decide (value_name m = "LAT"%string)) as [HL|HL];
    destruct (decide (value_name m = "PtP"%string)) as [HP|HP];
    try (rewrite HL in HP; discriminate HP); simpl; try done;
    (match goal with
     | |- context [getitem ?a ?i] =>
       destruct (getitem a i) as [value|e]; [|done]
     end);
    (destruct (arrays w !! c) as [D|]; [|done]); simpl;
    (destruct (getitem D (segment m - 1)) as [density|e]; [|done]); simpl;
    unfold Minimizator_update, report;
    destruct (unit_update _ _ _ _ _) as [st density_new]; simpl;
    by rewrite <-!app_assoc.
Qed.

(** The loop body for a unit, when the working copy holds [D]. *)
Lemma update_step_eq m c sd w D :
  arrays w !! c = Some D →
  update_step neg unit_update m c sd w =
  match selected neg (value_name m) sd with
  | None => (w, Raise UnboundLocalError)
  | Some values =>
    match getitem values (segment m - 1) with
    | Raise e => (w, Raise e)
    | Ok value =>
      match py_index (length D) (segment m - 1) with
      | None => (w, Raise IndexError)
      | Some k =>
        match D !! k with
        | None => (w, Raise IndexError)
        | Some density =>
          let r := Minimizator_update unit_update m density value in
          ({| arrays := <[c := <[k := r.2]> D]> (arrays w);
              stdout := stdout w ++ report m value density r.2 |},
           Ok r.1)
        end
      end
    end
  end.
Proof.
  intros HD. unfold update_step, bind at 1.
  rewrite update_minimizator_eq, HD.
  destruct (selected neg (value_name m) sd) as [values|]; [|done].
  destruct (getitem values (segment m - 1)) as [value|e]; [|done].
  unfold getitem.
  destruct (py_index (length D) (segment m - 1)) as [k|] eqn:Hk; [|done].
  destruct (D !! k) as [density|] eqn:Hd; [|done].
  cbv zeta.
  pose proof (Minimizator_update_same m density value) as [Hseg _].
  destruct (Minimizator_update unit_update m density value) as [m' density_new].
  simpl in *. unfold store, bind, deref, lift, setitem, ret. simpl.
  by rewrite HD, <-Hseg, Hk.
Qed.

Lemma update_step_Ok m c sd w D w' m' :
  arrays w !! c = Some D →
  update_step neg unit_update m c sd w = (w', Ok m') →
  ∃ values value k density,
    selected neg (value_name m) sd = Some values ∧
    getitem values (segment m - 1) = Ok value ∧
    py_index (length D) (segment m - 1) = Some k ∧
    D !! k = Some density ∧
    m' = (Minimizator_update unit_update m density value).1 ∧
    w' = {| arrays :=
              <[c := <[k := (Minimizator_update unit_update m density value).2]> D]>
                (arrays w);
            stdout :=
              stdout w ++
              report m value density
                (Minimizator_update unit_update m density value).2 |}.
Proof.
  intros HD. rewrite update_step_eq with (D := D) by done.
  destruct (selected neg (value_name m) sd) as [values|]; [|done].
  destruct (getitem values (segment m - 1)) as [value|e] eqn:Hv; [|done].
  destruct (py_index (length D) (segment m - 1)) as [k|] eqn:Hk; [|done].
  destruct (D !! k) as [density|] eqn:Hd; [|done].
  cbv zeta. intros [= <- <-]. by exists values, value, k, density.
Qed.

(** A unit that raises leaves the world as it was: every exception of the
    loop body comes before the unit's [update] and before any write. *)
Lemma update_step_Raise m c sd w D w' e :
  arrays w !! c = Some D →
  update_step neg unit_update m c sd w = (w', Raise e) → w' = w.
Proof.
  intros HD. rewrite update_step_eq with (D := D) by done.
  destruct (selected neg (value_name m) sd) as [values|]; [|congruence].
  destruct (getitem values (segment m - 1)) as [value|e']; [|congruence].
  destruct (py_index (length D) (segment m - 1)) as [k|]; [|congruence].
  destruct (D !! k) as [density|]; [|congruence].
  done.
Qed.

(** ** The loop *)

(** What the loop keeps: the units' segments and channels, every array but
    the working copy, the length of the working copy, and each position of
    it that no unit addresses. *)
Lemma update_loop_inv ms : ∀ c sd w D w' ms' r,
  arrays w !! c = Some D →
  update_loop neg unit_update ms c sd w = (w', (ms', r)) →
  Forall2 same_unit ms ms' ∧
  (∀ l, l ≠ c → arrays w' !! l = arrays w !! l) ∧
  ∃ D', arrays w' !! c = Some D' ∧ length D' = length D ∧
    ∀ k, Forall (λ u, py_index (length D) (segment u - 1) ≠ Some k) ms →
         D' !! k = D !! k.
Proof.
  induction ms as [|m rest IH]; intros c sd w D w' ms' r HD; simpl.
  - intros [= <- <- <-]. split; [constructor|]. split; [done|]. eauto.
  - destruct (update_step neg unit_update m c sd w) as [w1 [m'|e]] eqn:Hstep.
    + destruct (update_step_Ok _ _ _ _ _ _ _ HD Hstep)
        as (values & value & k & density & _ & _ & Hk & Hd & Hm' & Hw1).
      set (new := (Minimizator_update unit_update m density value).2) in *.
      assert (HD1 : arrays w1 !! c = Some (<[k:=new]> D)).
      { subst w1. simpl. apply lookup_insert_eq. }
      destruct (update_loop neg unit_update rest c sd w1)
        as [w2 [rest' r']] eqn:Hrest.
      intros [= <- <- <-].
      destruct (IH _ _ _ _ _ _ _ HD1 Hrest)
        as (Hsame & Hframe & D' & HD' & Hlen & Hkeep).
      split.
      { constructor; [|done]. subst m'. apply Minimizator_update_same. }
      split.
      { intros l Hl. rewrite (Hframe l Hl). subst w1. simpl.
        by apply lookup_insert_ne. }
      exists D'. split; [done|]. rewrite Hlen, length_insert. split; [done|].
      intros j [Hm Hj]%Forall_cons. rewrite Hkeep.
      * apply list_lookup_insert_ne. congruence.
      * by rewrite length_insert.
    + intros [= <- <- <-]. rewrite (update_step_Raise _ _ _ _ _ _ _ HD Hstep).
      split; [apply Forall2_same_length_lookup_2; [done|]|].
      { intros i x y Hx Hy. by simplify_eq. }
      split; [done|]. eauto.
Qed.

(** The loop over a concatenation: the second half runs from where the
    first half stopped, unless the first half raised. *)
Lemma update_loop_app pre post c sd w :
  update_loop neg unit_update (pre ++ post) c sd w =
  match update_loop neg unit_update pre c sd w with
  | (w1, (pre', Ok _)) =>
    let '(w2, (post', r)) := update_loop neg unit_update post c sd w1 in
    (w2, (pre' ++ post', r))
  | (w1, (pre', Raise e)) => (w1, (pre' ++ post, Raise e))
  end.
Proof.
  revert w. induction pre as [|m pre IH]; intros w; simpl.
  - by destruct (update_loop neg unit_update post c sd w) as [w2 [post' r]].
  - destruct (update_step neg unit_update m c sd w) as [w1 [m'|e]]; [|done].
    rewrite IH.
    destruct (update_loop neg unit_update pre c sd w1) as [w2 [pre' [[]|e]]];
      [|done].
    by destruct (update_loop neg unit_update post c sd w2) as [w3 [post' r]].
Qed.

(** ** The copy *)

Lemma copy_eq d w D :
  arrays w !! d = Some D →
  copy d w =
  ({| arrays := <[fresh (dom (arrays w)) := D]> (arrays w);
      stdout := stdout w |},
   Ok (fresh (dom (arrays w)))).
Proof. intros HD. unfold copy, bind, deref. by rewrite HD. Qed.

Lemma copy_dead d w :
  arrays w !! d = None → copy d w = (w, Raise DeadReference).
Proof. intros HD. unfold copy, bind, deref. by rewrite HD. Qed.

Lemma fresh_unused w : arrays w !! fresh (dom (arrays w)) = None.
Proof. apply not_elem_of_dom, is_fresh. Qed.

Lemma copy_Ok d w w1 c :
  copy d w = (w1, Ok c) →
  ∃ D, arrays w !! d = Some D ∧ arrays w !! c = None ∧
       arrays w1 = <[c := D]> (arrays w) ∧ stdout w1 = stdout w.
Proof.
  destruct (arrays w !! d) as [D|] eqn:HD.
  - rewrite (copy_eq _ _ _ HD). intros [= <- <-].
    exists D. eauto using fresh_unused.
  - by rewrite (copy_dead _ _ HD).
Qed.

(** ** The whole-collection update *)

Lemma update_unfold self d sd w w1 c :
  copy d w = (w1, Ok c) →
  update neg unit_update self d sd w =
  let '(w2, (ms, r)) :=
    update_loop neg unit_update (minimizators self) c sd w1 in
  {| world_after := w2;
     self_after := {| density_step_tol := density_step_tol self;
                      minimizators := ms |};
     returned := match r with Ok _ => Ok c | Raise e => Raise e end |}.
Proof. intros Hc. unfold update. by rewrite Hc. Qed.

(** A call that returns went through the copy and the whole loop. *)
Lemma update_returned self d sd w r :
  returned (update neg unit_update self d sd w) = Ok r →
  ∃ D w1 w2 ms,
    arrays w !! d = Some D ∧
    copy d w = (w1, Ok r) ∧
    arrays w1 !! r = Some D ∧
    update_loop neg unit_update (minimizators self) r sd w1
      = (w2, (ms, Ok tt)) ∧
    world_after (update neg unit_update self d sd w) = w2.
Proof.
  destruct (copy d w) as [w1 [c|e]] eqn:Hc.
  - rewrite (update_unfold self _ sd _ _ _ Hc).
    destruct (copy_Ok _ _ _ _ Hc) as (D & HD & _ & Hw1 & _).
    destruct (update_loop neg unit_update (minimizators self) c sd w1)
      as [w2 [ms [[]|e]]] eqn:Hloop; simpl; [|done].
    intros [= <-]. exists D, w1, w2, ms.
    rewrite Hw1, lookup_insert_eq. done.
  - unfold update. rewrite Hc. done.
Qed.

(** Every array of the store before the call is still there, unchanged,
    after it; a returned reference is to an array that did not exist. *)
Lemma update_frame self d sd w :
  (∀ l a, arrays w !! l = Some a →
     arrays (world_after (update neg unit_update self d sd w)) !! l = Some a) ∧
  (∀ r, returned (update neg unit_update self d sd w) = Ok r →
     arrays w !! r = None ∧
     is_Some (arrays (world_after (update neg unit_update self d sd w)) !! r)).
Proof.
  destruct (copy d w) as [w1 [c|e]] eqn:Hc.
  - rewrite (update_unfold self _ sd _ _ _ Hc).
    destruct (copy_Ok _ _ _ _ Hc) as (D & HD & Hfresh & Hw1 & _).
    assert (HD1 : arrays w1 !! c = Some D).
    { rewrite Hw1. apply lookup_insert_eq. }
    destruct (update_loop neg unit_update (minimizators self) c sd w1)
      as [w2 [ms r]] eqn:Hloop. simpl.
    destruct (update_loop_inv _ _ _ _ _ _ _ _ HD1 Hloop)
      as (_ & Hframe & D' & HD' & _).
    split.
    + intros l a Hl. assert (l ≠ c) by congruence.
      rewrite Hframe, Hw1, lookup_insert_ne; done.
    + destruct r as [[]|e]; [|done]. intros r [= <-]. eauto.
  - assert (w1 = w) as ->.
    { unfold copy, bind, deref in Hc.
      destruct (arrays w !! d); simplify_eq; done. }
    unfold update. rewrite Hc. simpl. split; done.
Qed.

(** ** C1: sign convention *)

(** C1. Whatever the unit is, the measured value its [update] receives is
    selected by its channel tag: for ['LAT'] and segment [s] it is the
    negation of [lat_mean_per_segment[s-1]], for ['PtP'] it is
    [ptp_mean_per_segment[s-1]] itself. The per-unit update returns what
    the unit's [update] returns on the current density and that value, and
    prints that value. *)
Theorem sign_convention m c sd w D density x :
  arrays w !! c = Some D →
  getitem D (segment m - 1) = Ok density →
  (value_name m = "LAT"%string →
   getitem (lat_mean_per_segment sd) (segment m - 1) = Ok x →
   let r := Minimizator_update unit_update m density (neg x) in
   update_minimizator neg unit_update m c sd w =
   ({| arrays := arrays w;
       stdout := stdout w ++ report m (neg x) density r.2 |},
    Ok (r.1, (density, r.2)))) ∧
  (value_name m = "PtP"%string →
   getitem (ptp_mean_per_segment sd) (segment m - 1) = Ok x →
   let r := Minimizator_update unit_update m density x in
   update_minimizator neg unit_update m c sd w =
   ({| arrays := arrays w;
       stdout := stdout w ++ report m x density r.2 |},
    Ok (r.1, (density, r.2)))).
Proof.
  intros HD Hd. split; intros Hname Hx; rewrite update_minimizator_eq;
    unfold selected; rewrite Hname; simpl.
  - by rewrite getitem_fmap, Hx, HD, Hd.
  - by rewrite Hx, HD, Hd.
Qed.

(** ** C2: the caller's vector is not mutated *)

(** C2. A call of [update] leaves the caller's vector, and every other
    array that existed before the call, unchanged in every element; the
    vector it returns is a new array, different from the caller's. *)
Theorem update_does_not_mutate_input self d sd w D :
  arrays w !! d = Some D →
  let o := update neg unit_update self d sd w in
  arrays (world_after o) !! d = Some D ∧
  (∀ l a, arrays w !! l = Some a → arrays (world_after o) !! l = Some a) ∧
  (∀ r, returned o = Ok r →
        r ≠ d ∧ arrays w !! r = None ∧ is_Some (arrays (world_after o) !! r)).
Proof.
  intros HD o. destruct (update_frame self d sd w) as [Hold Hnew].
  split; [by apply Hold|]. split; [done|].
  intros r Hr. destruct (Hnew r Hr) as [Hnone Hsome].
  split; [congruence|done].
Qed.

(** ** Reading the result of a call *)

Lemma output_Ok (o : Outcome V St) out :
  output o = Ok out ↔
  ∃ r, returned o = Ok r ∧ arrays (world_after o) !! r = Some out.
Proof.
  unfold output. split.
  - destruct (returned o) as [r|e]; [|done].
    destruct (arrays (world_after o) !! r) as [a|] eqn:Ha; [|done].
    intros [= <-]. eauto.
  - intros (r & -> & ->). done.
Qed.

(** A call that returns [out]: the copy, the loop, and where [out] is. *)
Lemma update_output self d sd w out :
  output (update neg unit_update self d sd w) = Ok out →
  ∃ D w1 c w2 ms,
    arrays w !! d = Some D ∧
    copy d w = (w1, Ok c) ∧
    arrays w1 !! c = Some D ∧
    update_loop neg unit_update (minimizators self) c sd w1
      = (w2, (ms, Ok tt)) ∧
    arrays w2 !! c = Some out.
Proof.
  intros (r & Hr & Hout)%output_Ok.
  destruct (update_returned _ _ _ _ _ Hr)
    as (D & w1 & w2 & ms & HD & Hc & HD1 & Hloop & Hw).
  rewrite Hw in Hout. exists D, w1, r, w2, ms. done.
Qed.

(** ** One unit in the middle of the loop *)

Lemma produced_cons m0 before m c sd w w1 m0' :
  update_step neg unit_update m0 c sd w = (w1, Ok m0') →
  produced neg unit_update (m0 :: before) m c sd w
  = produced neg unit_update before m c sd w1.
Proof.
  intros Hstep. unfold produced. simpl. rewrite Hstep.
  by destruct (update_loop neg unit_update before c sd w1)
    as [w2 [before' [[]|e]]].
Qed.

Lemma produced_app pre before m c sd w w1 pre' :
  update_loop neg unit_update pre c sd w = (w1, (pre', Ok tt)) →
  produced neg unit_update (pre ++ before) m c sd w
  = produced neg unit_update before m c sd w1.
Proof.
  intros Hpre. unfold produced. rewrite update_loop_app, Hpre.
  by destruct (update_loop neg unit_update before c sd w1)
    as [w2 [before' [[]|e]]].
Qed.

(** When the loop over [pre ++ m :: post] ends without exception: the state
    in which [m] is reached, what [m] reads and produces there, and the
    state from which the loop goes on. *)
Lemma update_loop_split pre m post c sd w w' ms' D :
  arrays w !! c = Some D →
  update_loop neg unit_update (pre ++ m :: post) c sd w = (w', (ms', Ok tt)) →
  ∃ w2 pre' D2 value k density w3 m' post',
    update_loop neg unit_update pre c sd w = (w2, (pre', Ok tt)) ∧
    update_step neg unit_update m c sd w2 = (w3, Ok m') ∧
    arrays w2 !! c = Some D2 ∧
    length D2 = length D ∧
    (∀ j, Forall (λ u, py_index (length D) (segment u - 1) ≠ Some j) pre →
          D2 !! j = D !! j) ∧
    py_index (length D) (segment m - 1) = Some k ∧
    D2 !! k = Some density ∧
    produced neg unit_update pre m c sd w
      = Ok (density, (Minimizator_update unit_update m density value).2) ∧
    arrays w3 !! c
      = Some (<[k := (Minimizator_update unit_update m density value).2]> D2) ∧
    update_loop neg unit_update post c sd w3 = (w', (post', Ok tt)).
Proof.
  intros HD. rewrite update_loop_app.
  destruct (update_loop neg unit_update pre c sd w)
    as [w2 [pre' [[]|e]]] eqn:Hpre; [|done].
  destruct (update_loop_inv _ _ _ _ _ _ _ _ HD Hpre)
    as (_ & _ & D2 & HD2 & Hlen & Hkeep).
  simpl.
  destruct (update_step neg unit_update m c sd w2) as [w3 [m'|e]] eqn:Hstep;
    [|done].
  destruct (update_loop neg unit_update post c sd w3)
    as [w4 [post' r]] eqn:Hpost.
  intros [= <- <- ->].
  destruct (update_step_Ok _ _ _ _ _ _ _ HD2 Hstep)
    as (values & value & k & density & Hsel & Hval & Hk & Hd & Hm' & Hw3).
  exists w2, pre', D2, value, k, density, w3, m', post'.
  repeat split; try done.
  - by rewrite <-Hlen.
  - unfold produced. rewrite Hpre, update_minimizator_eq, Hsel, Hval, HD2.
    assert (getitem D2 (segment m - 1) = Ok density) as ->; [|done].
    apply getitem_Ok. eauto.
  - subst w3. simpl. apply lookup_insert_eq.
Qed.

(** Units with positive segments other than [s] do not address the
    position of [s]. *)
Lemma other_segments_elsewhere ms (n : nat) (s : Z) :
  (1 ≤ s)%Z →
  Forall (λ u, (1 ≤ segment u)%Z) ms →
  Forall (λ u, segment u ≠ s) ms →
  Forall (λ u, py_index n (segment u - 1) ≠ Some (Z.to_nat (s - 1))) ms.
Proof.
  intros Hs Hpos Hne. apply Forall_forall. intros u Hu Hk.
  rewrite Forall_forall in Hpos, Hne.
  apply py_index_segment in Hk; [|by apply Hpos].
  specialize (Hpos u Hu). specialize (Hne u Hu). lia.
Qed.

(** ** C3: segments without a unit *)

(** C3. With segment identifiers 1-indexed (every unit's segment is at
    least 1), the vector a call of [update] returns has the length of the
    input, and at the position [s - 1] of every segment [s] that no unit
    owns it holds the input's value. *)
Theorem unmanaged_segments_pass_through self d sd w D out :
  arrays w !! d = Some D →
  Forall (λ u, (1 ≤ segment u)%Z) (minimizators self) →
  output (update neg unit_update self d sd w) = Ok out →
  length out = length D ∧
  ∀ s, (1 ≤ s)%Z → s ∉ segments self →
       out !! Z.to_nat (s - 1) = D !! Z.to_nat (s - 1).
Proof.
  intros HD Hpos Hout.
  destruct (update_output _ _ _ _ _ Hout)
    as (D0 & w1 & c & w2 & ms & HD0 & _ & HD1 & Hloop & Hc).
  assert (D0 = D) as -> by congruence.
  destruct (update_loop_inv _ _ _ _ _ _ _ _ HD1 Hloop)
    as (_ & _ & D' & HD' & Hlen & Hkeep).
  assert (D' = out) as -> by congruence.
  split; [done|]. intros s Hs Hnot. apply Hkeep.
  apply other_segments_elsewhere; [done..|].
  apply Forall_forall. intros u Hu Hus. apply Hnot. subst s.
  unfold segments. by apply list_elem_of_fmap_2.
Qed.

(** ** C4: several units on one segment *)

(** C4. With segment identifiers 1-indexed, if [m] is the last unit in
    construction order with its segment, the returned vector holds at that
    segment's position the new density [m] produced when the loop reached
    it, whatever the units before it on the same segment wrote. *)
Theorem last_unit_wins self d sd w w1 c pre m post out :
  minimizators self = pre ++ m :: post →
  Forall (λ u, (1 ≤ segment u)%Z) (minimizators self) →
  Forall (λ u, segment u ≠ segment m) post →
  copy d w = (w1, Ok c) →
  output (update neg unit_update self d sd w) = Ok out →
  ∃ density density_new,
    produced neg unit_update pre m c sd w1 = Ok (density, density_new) ∧
    out !! Z.to_nat (segment m - 1) = Some density_new.
Proof.
  intros Hms Hpos Hlast Hcopy Hout.
  destruct (update_output _ _ _ _ _ Hout)
    as (D & w1' & c' & w' & ms' & HD & Hcopy' & HD1 & Hloop & Hc).
  rewrite Hcopy in Hcopy'. injection Hcopy' as <- <-.
  rewrite Hms in Hloop, Hpos.
  apply Forall_app in Hpos as [_ [Hm Hpost]%Forall_cons].
  destruct (update_loop_split _ _ _ _ _ _ _ _ _ HD1 Hloop)
    as (w2 & pre' & D2 & value & k & density & w3 & m' & post'
        & _ & _ & _ & Hlen & _ & Hk & _ & Hprod & HD3 & Hpost').
  exists density, (Minimizator_update unit_update m density value).2.
  split; [done|].
  destruct (update_loop_inv _ _ _ _ _ _ _ _ HD3 Hpost')
    as (_ & _ & D' & HD' & _ & Hkeep).
  assert (D' = out) as -> by congruence.
  pose proof (py_index_lt _ _ _ Hk) as Hlt.
  rewrite (py_index_segment _ _ _ Hm Hk) in *.
  rewrite Hkeep.
  - apply list_lookup_insert_eq. lia.
  - by apply other_segments_elsewhere.
Qed.

(** ** C10: the current density is read from the working copy *)

(** C10. With segment identifiers 1-indexed, if [m1] and [m2] have the same
    segment and no unit between them has it, the current density [m2]'s
    [update] receives is the new density [m1] produced, not the value the
    caller's vector holds there. *)
Theorem later_unit_reads_earlier_result
    self d sd w w1 c pre m1 mid m2 post out :
  minimizators self = pre ++ m1 :: mid ++ m2 :: post →
  Forall (λ u, (1 ≤ segment u)%Z) (minimizators self) →
  segment m2 = segment m1 →
  Forall (λ u, segment u ≠ segment m1) mid →
  copy d w = (w1, Ok c) →
  output (update neg unit_update self d sd w) = Ok out →
  ∃ density1 new1 value2,
    produced neg unit_update pre m1 c sd w1 = Ok (density1, new1) ∧
    produced neg unit_update (pre ++ m1 :: mid) m2 c sd w1
      = Ok (new1, (Minimizator_update unit_update m2 new1 value2).2).
Proof.
  intros Hms Hpos Hseg Hmid Hcopy Hout.
  destruct (update_output _ _ _ _ _ Hout)
    as (D & w1' & c' & w' & ms' & HD & Hcopy' & HD1 & Hloop & Hc).
  rewrite Hcopy in Hcopy'. injection Hcopy' as <- <-.
  rewrite Hms in Hloop, Hpos.
  apply Forall_app in Hpos as [_ [Hm1 Hpos]%Forall_cons].
  apply Forall_app in Hpos as [Hposmid _].
  destruct (update_loop_split _ _ _ _ _ _ _ _ _ HD1 Hloop)
    as (w2 & pre' & D2 & value1 & k1 & density1 & w3 & m1' & rest'
        & Hpre & Hstep1 & _ & Hlen2 & _ & Hk1 & _ & Hprod1 & HD3 & Hrest).
  set (new1 := (Minimizator_update unit_update m1 density1 value1).2) in *.
  destruct (update_loop_split _ _ _ _ _ _ _ _ _ HD3 Hrest)
    as (w4 & mid' & D4 & value2 & k2 & density2 & w5 & m2' & post'
        & Hmidrun & _ & _ & _ & Hkeep & Hk2 & Hd2 & Hprod2 & _ & _).
  exists density1, new1, value2. split; [done|].
  rewrite (produced_app _ _ _ _ _ _ _ _ Hpre).
  rewrite (produced_cons _ _ _ _ _ _ _ _ Hstep1), Hprod2.
  pose proof (py_index_lt _ _ _ Hk1) as Hlt.
  rewrite length_insert, Hlen2, Hseg, Hk1 in Hk2. injection Hk2 as <-.
  rewrite (py_index_segment _ _ _ Hm1 Hk1) in *.
  rewrite Hkeep in Hd2.
  - rewrite list_lookup_insert_eq in Hd2 by lia. by injection Hd2 as <-.
  - by apply other_segments_elsewhere.
Qed.

(** ** C5: indexing convention *)

(** C5. For a unit with segment [s ≥ 1], one pass of the loop body reads
    the measurement array of the unit's channel at position [s - 1], reads
    the density vector at position [s - 1], and writes the new density into
    the working copy at position [s - 1], and nowhere else. *)
Theorem unit_accesses_position_segment_minus_one m c sd w D w' m' :
  (1 ≤ segment m)%Z →
  arrays w !! c = Some D →
  update_step neg unit_update m c sd w = (w', Ok m') →
  ∃ values value density,
    selected neg (value_name m) sd = Some values ∧
    values !! Z.to_nat (segment m - 1) = Some value ∧
    D !! Z.to_nat (segment m - 1) = Some density ∧
    (update_minimizator neg unit_update m c sd w).2
      = Ok ((Minimizator_update unit_update m density value).1,
            (density, (Minimizator_update unit_update m density value).2)) ∧
    m' = (Minimizator_update unit_update m density value).1 ∧
    arrays w' =
      <[c := <[Z.to_nat (segment m - 1) :=
                 (Minimizator_update unit_update m density value).2]> D]>
        (arrays w).
Proof.
  intros Hs HD Hstep.
  destruct (update_step_Ok _ _ _ _ _ _ _ HD Hstep)
    as (values & value & k & density & Hsel & Hval & Hk & Hd & Hm' & Hw').
  apply getitem_Ok in Hval as (kv & Hkv & Hval).
  pose proof (py_index_segment _ _ _ Hs Hkv) as Hkv'. subst kv.
  pose proof (py_index_segment _ _ _ Hs Hk) as Hk'. subst k.
  exists values, value, density.
  split; [done|]. split; [done|]. split; [done|].
  split; [|split; [done|by rewrite Hw']].
  rewrite update_minimizator_eq, Hsel.
  assert (getitem values (segment m - 1) = Ok value) as ->.
  { apply getitem_Ok. eauto. }
  rewrite HD.
  assert (getitem D (segment m - 1) = Ok density) as ->; [|done].
  apply getitem_Ok. eauto.
Qed.

(** ** C6: exceptions *)

Lemma selected_known name sd :
  known_channel name → is_Some (selected neg name sd).
Proof. unfold selected. intros [-> | ->]; simpl; eauto. Qed.

Lemma selected_unknown name sd :
  ¬ known_channel name → selected neg name sd = None.
Proof.
  unfold selected, known_channel. intros Hn.
  repeat case_decide; tauto.
Qed.

Lemma update_minimizator_unknown m c sd w :
  ¬ known_channel (value_name m) →
  update_minimizator neg unit_update m c sd w = (w, Raise UnboundLocalError).
Proof.
  intros Hn. by rewrite update_minimizator_eq, selected_unknown.
Qed.

Lemma update_step_unknown m c sd w :
  ¬ known_channel (value_name m) →
  update_step neg unit_update m c sd w = (w, Raise UnboundLocalError).
Proof.
  intros Hn. unfold update_step, bind.
  by rewrite update_minimizator_unknown.
Qed.

Lemma update_step_known_Raise m c sd w D w' e :
  known_channel (value_name m) →
  arrays w !! c = Some D →
  update_step neg unit_update m c sd w = (w', Raise e) → e = IndexError.
Proof.
  intros Hn HD. rewrite update_step_eq with (D := D) by done.
  destruct (selected_known _ sd Hn) as [values ->].
  destruct (getitem values (segment m - 1)) as [value|e'] eqn:Hv.
  - destruct (py_index (length D) (segment m - 1)) as [k|]; [|congruence].
    destruct (D !! k) as [density|]; [done|congruence].
  - apply getitem_Raise in Hv as [-> _]. congruence.
Qed.

Lemma update_loop_known_Raise ms : ∀ c sd w D w' ms' e,
  Forall (λ u, known_channel (value_name u)) ms →
  arrays w !! c = Some D →
  update_loop neg unit_update ms c sd w = (w', (ms', Raise e)) →
  e = IndexError.
Proof.
  induction ms as [|m rest IH]; intros c sd w D w' ms' e Hn HD; simpl; [done|].
  apply Forall_cons in Hn as [Hm Hrest].
  destruct (update_step neg unit_update m c sd w) as [w1 [m'|e1]] eqn:Hstep.
  - destruct (update_step_Ok _ _ _ _ _ _ _ HD Hstep)
      as (values & value & k & density & _ & _ & _ & _ & _ & Hw1).
    destruct (update_loop neg unit_update rest c sd w1)
      as [w2 [rest' r]] eqn:Hloop.
    intros [= <- <- ->]. eapply IH; [done| |done].
    subst w1. simpl. apply lookup_insert_eq.
  - intros [= <- <- <-]. by eapply update_step_known_Raise.
Qed.

Lemma update_step_in_range m c sd w D :
  known_channel (value_name m) →
  in_range neg sd (length D) m →
  arrays w !! c = Some D →
  ∃ w' m' D', update_step neg unit_update m c sd w = (w', Ok m') ∧
              arrays w' !! c = Some D' ∧ length D' = length D.
Proof.
  intros Hn [HiD Hiv] HD. rewrite update_step_eq with (D := D) by done.
  destruct (selected_known _ sd Hn) as [values Hsel]. rewrite Hsel.
  destruct (getitem_valid values _ (Hiv _ Hsel)) as [value ->].
  apply py_index_valid in HiD as [k Hk]. rewrite Hk.
  destruct (lookup_lt_is_Some_2 D k (py_index_lt _ _ _ Hk)) as [density ->].
  eexists _, _, _. split; [done|]. simpl.
  rewrite lookup_insert_eq. split; [done|]. apply length_insert.
Qed.

Lemma update_loop_in_range ms : ∀ c sd w D,
  Forall (λ u, known_channel (value_name u)) ms →
  Forall (in_range neg sd (length D)) ms →
  arrays w !! c = Some D →
  ∃ w' ms', update_loop neg unit_update ms c sd w = (w', (ms', Ok tt)).
Proof.
  induction ms as [|m rest IH]; intros c sd w D Hn Hin HD; simpl; [eauto|].
  apply Forall_cons in Hn as [Hm Hrest].
  apply Forall_cons in Hin as [Him Hirest].
  destruct (update_step_in_range _ _ _ _ _ Hm Him HD)
    as (w1 & m' & D1 & -> & HD1 & Hlen).
  rewrite <-Hlen in Hirest.
  destruct (IH _ _ _ _ Hrest Hirest HD1) as (w2 & rest' & ->). eauto.
Qed.

Lemma selected_Some_known name sd values :
  selected neg name sd = Some values → known_channel name.
Proof.
  unfold selected, known_channel. repeat case_decide; intros; by eauto.
Qed.

Lemma update_loop_Ok_fit ms : ∀ c sd w D w' ms',
  arrays w !! c = Some D →
  update_loop neg unit_update ms c sd w = (w', (ms', Ok tt)) →
  Forall (λ u, known_channel (value_name u) ∧ in_range neg sd (length D) u)
         ms.
Proof.
  induction ms as [|m rest IH]; intros c sd w D w' ms' HD; simpl; [done|].
  destruct (update_step neg unit_update m c sd w) as [w1 [m'|e]] eqn:Hstep;
    [|done].
  destruct (update_step_Ok _ _ _ _ _ _ _ HD Hstep)
    as (values & value & k & density & Hsel & Hval & Hk & _ & _ & Hw1).
  destruct (update_loop neg unit_update rest c sd w1)
    as [w2 [rest' r]] eqn:Hloop.
  intros [= <- <- ->]. constructor.
  - split; [by eapply selected_Some_known|]. split.
    + apply py_index_valid. eauto.
    + intros values' Hsel'. assert (values' = values) as -> by congruence.
      apply getitem_Ok in Hval as (kv & Hkv & _).
      apply py_index_valid. eauto.
  - rewrite <-(length_insert D k (Minimizator_update unit_update m density value).2).
    eapply IH; [|done]. subst w1. simpl. apply lookup_insert_eq.
Qed.

(** C6, as the code has it. A unit whose channel is neither ['PtP'] nor
    ['LAT'] makes the per-unit update raise [UnboundLocalError], before the
    unit's [update] is called and with nothing printed or written, and
    [update] passes the exception on to its caller when the loop reaches
    that unit. When every unit's channel is ['PtP'] or ['LAT'], [update]
    never raises [UnboundLocalError]; it raises no exception at all when
    moreover every unit's index [segment - 1] is one Python accepts for the
    density vector and for the measurement array of the unit's channel,
    and it raises [IndexError] when some unit's index is not. *)
Theorem unknown_channel_raises_known_in_range_returns self d sd w :
  (∀ m c w0,
     ¬ known_channel (value_name m) →
     update_minimizator neg unit_update m c sd w0
       = (w0, Raise UnboundLocalError)) ∧
  (∀ pre m post w1 c w2 pre',
     minimizators self = pre ++ m :: post →
     ¬ known_channel (value_name m) →
     copy d w = (w1, Ok c) →
     update_loop neg unit_update pre c sd w1 = (w2, (pre', Ok tt)) →
     returned (update neg unit_update self d sd w)
       = Raise UnboundLocalError) ∧
  (Forall known_channel (value_names self) →
   returned (update neg unit_update self d sd w) ≠ Raise UnboundLocalError) ∧
  (∀ D,
     Forall known_channel (value_names self) →
     arrays w !! d = Some D →
     Forall (in_range neg sd (length D)) (minimizators self) →
     ∃ r, returned (update neg unit_update self d sd w) = Ok r) ∧
  (∀ D,
     Forall known_channel (value_names self) →
     arrays w !! d = Some D →
     ¬ Forall (in_range neg sd (length D)) (minimizators self) →
     returned (update neg unit_update self d sd w) = Raise IndexError).
Proof.
  split; [|split; [|split; [|split]]].
  - intros m c w0. apply update_minimizator_unknown.
  - intros pre m post w1 c w2 pre' Hms Hn Hcopy Hpre.
    rewrite (update_unfold self _ sd _ _ _ Hcopy), Hms, update_loop_app, Hpre.
    simpl. by rewrite update_step_unknown.
  - intros Hn. unfold value_names in Hn. rewrite Forall_fmap in Hn.
    destruct (copy d w) as [w1 [c|e]] eqn:Hcopy.
    + rewrite (update_unfold self _ sd _ _ _ Hcopy).
      destruct (copy_Ok _ _ _ _ Hcopy) as (D & _ & _ & Hw1 & _).
      assert (HD1 : arrays w1 !! c = Some D).
      { rewrite Hw1. apply lookup_insert_eq. }
      destruct (update_loop neg unit_update (minimizators self) c sd w1)
        as [w2 [ms [[]|e]]] eqn:Hloop; simpl; [done|].
      by rewrite (update_loop_known_Raise _ _ _ _ _ _ _ _ Hn HD1 Hloop).
    + unfold update. rewrite Hcopy. simpl.
      unfold copy, bind, deref in Hcopy.
      destruct (arrays w !! d); by simplify_eq.
  - intros D Hn HD Hin. unfold value_names in Hn. rewrite Forall_fmap in Hn.
    pose proof (copy_eq _ _ _ HD) as Hcopy.
    rewrite (update_unfold self _ sd _ _ _ Hcopy).
    edestruct (update_loop_in_range (minimizators self)) as (w2 & ms' & ->);
      [exact Hn|exact Hin| |].
    + simpl. apply lookup_insert_eq.
    + simpl. eauto.
  - intros D Hn HD Hout. unfold value_names in Hn. rewrite Forall_fmap in Hn.
    pose proof (copy_eq _ _ _ HD) as Hcopy.
    rewrite (update_unfold self _ sd _ _ _ Hcopy).
    set (c := fresh (dom (arrays w))) in *.
    set (w1 := {| arrays := <[c:=D]> (arrays w); stdout := stdout w |}) in *.
    assert (HD1 : arrays w1 !! c = Some D) by apply lookup_insert_eq.
    destruct (update_loop neg unit_update (minimizators self) c sd w1)
      as [w2 [ms [[]|e]]] eqn:Hloop; simpl.
    + destruct Hout.
      pose proof (update_loop_Ok_fit _ _ _ _ _ _ _ HD1 Hloop) as Hfit.
      by apply Forall_and in Hfit as [_ Hin].
    + by rewrite (update_loop_known_Raise _ _ _ _ _ _ _ _ Hn HD1 Hloop).
Qed.

(** ** C8: determinism across calls *)

Lemma Minimizator_update_snd m density value :
  (Minimizator_update unit_update m density value).2
  = (unit_update (segment m) (value_name m) (calib m) density value).2.
Proof. unfold Minimizator_update. by destruct (unit_update _ _ _ _ _). Qed.

(** Two units with the same segment and channel, each on its own working
    copy with the same contents: both raise the same exception, or both
    leave the same contents. *)
Lemma update_step_deterministic m1 m2 c1 c2 sd w1 w2 D :
  deterministic_unit unit_update →
  same_unit m1 m2 →
  arrays w1 !! c1 = Some D →
  arrays w2 !! c2 = Some D →
  match update_step neg unit_update m1 c1 sd w1,
        update_step neg unit_update m2 c2 sd w2 with
  | (w1', Ok m1'), (w2', Ok m2') =>
    ∃ D', arrays w1' !! c1 = Some D' ∧ arrays w2' !! c2 = Some D'
  | (w1', Raise e1), (w2', Raise e2) =>
    e1 = e2 ∧ arrays w1' !! c1 = Some D ∧ arrays w2' !! c2 = Some D
  | _, _ => False
  end.
Proof.
  intros Hdet [Hseg Hname] HD1 HD2.
  rewrite update_step_eq with (D := D) by done.
  rewrite update_step_eq with (D := D) (m := m2) by done.
  rewrite <-Hseg, <-Hname.
  destruct (selected neg (value_name m1) sd) as [values|]; [|done].
  destruct (getitem values (segment m1 - 1)) as [value|e]; [|done].
  destruct (py_index (length D) (segment m1 - 1)) as [k|]; [|done].
  destruct (D !! k) as [density|]; [|done].
  cbv zeta. simpl. rewrite !lookup_insert_eq, !Minimizator_update_snd.
  rewrite <-Hseg, <-Hname, (Hdet _ _ (calib m1) (calib m2)). eauto.
Qed.

Lemma update_loop_deterministic ms1 ms2 :
  deterministic_unit unit_update →
  Forall2 same_unit ms1 ms2 →
  ∀ c1 c2 sd w1 w2 D w1' w2' ms1' ms2' r1 r2,
    arrays w1 !! c1 = Some D →
    arrays w2 !! c2 = Some D →
    update_loop neg unit_update ms1 c1 sd w1 = (w1', (ms1', r1)) →
    update_loop neg unit_update ms2 c2 sd w2 = (w2', (ms2', r2)) →
    r1 = r2 ∧ arrays w1' !! c1 = arrays w2' !! c2.
Proof.
  intros Hdet Hsame.
  induction Hsame as [|m1 m2 rest1 rest2 Hm Hrest IH];
    intros c1 c2 sd w1 w2 D w1' w2' ms1' ms2' r1 r2 HD1 HD2; simpl.
  - intros [= <- <- <-] [= <- <- <-]. by rewrite HD1, HD2.
  - pose proof (update_step_deterministic _ _ _ _ sd _ _ _ Hdet Hm HD1 HD2)
      as Hstep.
    destruct (update_step neg unit_update m1 c1 sd w1) as [v1 [m1'|e1]];
      destruct (update_step neg unit_update m2 c2 sd w2) as [v2 [m2'|e2]];
      try done.
    + destruct Hstep as (D' & HD1' & HD2').
      destruct (update_loop neg unit_update rest1 c1 sd v1)
        as [u1 [rest1' q1]] eqn:Hloop1.
      destruct (update_loop neg unit_update rest2 c2 sd v2)
        as [u2 [rest2' q2]] eqn:Hloop2.
      intros [= <- <- <-] [= <- <- <-]. by eapply IH.
    + destruct Hstep as (-> & HD1' & HD2').
      intros [= <- <- <-] [= <- <- <-]. by rewrite HD1', HD2'.
Qed.

(** Two collections whose units agree on segments and channels, called on
    vectors with the same contents, return the same contents or raise the
    same exception. *)
Lemma update_deterministic self1 self2 d1 d2 sd w1 w2 D :
  deterministic_unit unit_update →
  Forall2 same_unit (minimizators self1) (minimizators self2) →
  arrays w1 !! d1 = Some D →
  arrays w2 !! d2 = Some D →
  output (update neg unit_update self1 d1 sd w1)
  = output (update neg unit_update self2 d2 sd w2).
Proof.
  intros Hdet Hsame HD1 HD2.
  rewrite (update_unfold self1 _ sd _ _ _ (copy_eq _ _ _ HD1)).
  rewrite (update_unfold self2 _ sd _ _ _ (copy_eq _ _ _ HD2)).
  set (c1 := fresh (dom (arrays w1))). set (c2 := fresh (dom (arrays w2))).
  destruct (update_loop neg unit_update (minimizators self1) c1 sd _)
    as [u1 [ms1 r1]] eqn:Hloop1.
  destruct (update_loop neg unit_update (minimizators self2) c2 sd _)
    as [u2 [ms2 r2]] eqn:Hloop2.
  edestruct (update_loop_deterministic _ _ Hdet Hsame c1 c2) as [-> Heq];
    [| |exact Hloop1|exact Hloop2|]; simpl; try apply lookup_insert_eq.
  unfold output. simpl. destruct r2 as [[]|e]; [|done]. by rewrite Heq.
Qed.

(** A call leaves the units' segments and channels as they were. *)
Lemma update_same_units self d sd w :
  Forall2 same_unit
    (minimizators self)
    (minimizators (self_after (update neg unit_update self d sd w))).
Proof.
  assert (Hrefl : ∀ ms, Forall2 same_unit ms ms).
  { intros ms. apply Forall2_same_length_lookup_2; [done|].
    intros i x y Hx Hy. by simplify_eq. }
  destruct (copy d w) as [w1 [c|e]] eqn:Hcopy.
  - rewrite (update_unfold self _ sd _ _ _ Hcopy).
    destruct (copy_Ok _ _ _ _ Hcopy) as (D & _ & _ & Hw1 & _).
    assert (HD1 : arrays w1 !! c = Some D).
    { rewrite Hw1. apply lookup_insert_eq. }
    destruct (update_loop neg unit_update (minimizators self) c sd w1)
      as [w2 [ms r]] eqn:Hloop. simpl.
    by destruct (update_loop_inv _ _ _ _ _ _ _ _ HD1 Hloop) as [? _].
  - unfold update. rewrite Hcopy. simpl. apply Hrefl.
Qed.

(** C8. With units whose returned density does not depend on their
    internal state, calling [update] a second time on the same collection
    with the same vector and the same snapshot returns a vector with the
    contents of the first (or raises the same exception), although the
    first call changed the units; the same holds for a second call on any
    vector with the contents of the first. *)
Theorem update_deterministic_across_calls self d sd w D :
  deterministic_unit unit_update →
  arrays w !! d = Some D →
  let first := update neg unit_update self d sd w in
  output (update neg unit_update (self_after first) d sd (world_after first))
    = output first ∧
  ∀ w' d', arrays w' !! d' = Some D →
    output (update neg unit_update (self_after first) d' sd w') = output first.
Proof.
  intros Hdet HD first.
  assert (Hany : ∀ w' d', arrays w' !! d' = Some D →
    output (update neg unit_update (self_after first) d' sd w') = output first).
  { intros w' d' HD'. symmetry.
    apply update_deterministic with (D := D); try done.
    apply update_same_units. }
  split; [|done]. apply Hany.
  by apply (update_frame self d sd w).
Qed.

End Properties.

Section Construction.

Context {V St : Type} (tol_default : V) (unit_init : Z → string → St).

Implicit Types (self : MinimizatorsCollection V St).
Implicit Types (ms : list (Minimizator St)).

(** ** C7: construction *)

(** The appending loop builds the list of the units of the pairs. *)
Lemma make_minimizators_loop (pairs : list (Z * string)) ms :
  foldl (λ minimizators '(segment, value_name),
           minimizators ++ [new_Minimizator unit_init segment value_name])
        ms pairs
  = ms ++ ((λ p, new_Minimizator unit_init p.1 p.2) <$> pairs).
Proof.
  revert ms. induction pairs as [|[s name] pairs IH]; intros ms; simpl.
  - by rewrite app_nil_r.
  - by rewrite IH, <-app_assoc.
Qed.

Lemma make_minimizators_eq (segs : list Z) (names : list string) :
  make_minimizators unit_init segs names
  = (λ p, new_Minimizator unit_init p.1 p.2) <$> zip segs names.
Proof. unfold make_minimizators. by rewrite make_minimizators_loop. Qed.

Lemma zip_fst_take {A B : Type} (l : list A) (k : list B) :
  (zip l k).*1 = take (length k) l.
Proof.
  revert k. induction l as [|x l IH]; intros [|y k]; simpl; try done.
  by rewrite IH.
Qed.

Lemma zip_snd_take {A B : Type} (l : list A) (k : list B) :
  (zip l k).*2 = take (length l) k.
Proof.
  revert k. induction l as [|x l IH]; intros [|y k]; simpl; try done.
  by rewrite IH.
Qed.

Lemma make_minimizators_segments (segs : list Z) (names : list string) :
  segment <$> make_minimizators unit_init segs names
  = take (length names) segs.
Proof.
  by rewrite make_minimizators_eq, <-list_fmap_compose, <-zip_fst_take.
Qed.

Lemma make_minimizators_value_names (segs : list Z) (names : list string) :
  value_name <$> make_minimizators unit_init segs names
  = take (length segs) names.
Proof.
  by rewrite make_minimizators_eq, <-list_fmap_compose, <-zip_snd_take.
Qed.

(** C7. [make_minimizators] builds one unit per pair of [zip], in input
    order: as many units as the shorter sequence has elements, the [i]-th
    being [Minimizator(segments[i], value_names[i])]; the elements of the
    longer sequence beyond that are ignored, and no error is raised. *)
Theorem make_minimizators_pairs_in_order (segs : list Z) (names : list string) :
  length (make_minimizators unit_init segs names)
    = min (length segs) (length names) ∧
  (∀ i s name,
     segs !! i = Some s → names !! i = Some name →
     make_minimizators unit_init segs names !! i
       = Some (new_Minimizator unit_init s name)) ∧
  segment <$> make_minimizators unit_init segs names
    = take (length names) segs ∧
  value_name <$> make_minimizators unit_init segs names
    = take (length segs) names.
Proof.
  split; [|split; [|split]].
  - by rewrite make_minimizators_eq, length_fmap, length_zip.
  - intros i s name Hs Hname.
    rewrite make_minimizators_eq, list_lookup_fmap, lookup_zip_with, Hs.
    simpl. by rewrite Hname.
  - apply make_minimizators_segments.
  - apply make_minimizators_value_names.
Qed.

(** ** C9: accessors *)

(** C9. [segments] and [value_names] are functions of the units the
    collection holds when they are read: element by element the [segment]
    and the [value_name] of the units, in order; after the list of units is
    replaced they answer for the new list; on a collection just built they
    are the paired prefixes of the construction input. *)
Theorem accessors_follow_the_units self :
  segments self = segment <$> minimizators self ∧
  value_names self = value_name <$> minimizators self ∧
  (∀ i, segments self !! i = segment <$> minimizators self !! i) ∧
  (∀ i, value_names self !! i = value_name <$> minimizators self !! i) ∧
  (∀ ms,
     let self' := {| density_step_tol := density_step_tol self;
                     minimizators := ms |} in
     segments self' = segment <$> ms ∧
     value_names self' = value_name <$> ms) ∧
  (∀ segs names tol,
     let built := init tol_default unit_init segs names tol in
     segments built = take (length names) segs ∧
     value_names built = take (length segs) names).
Proof.
  repeat split.
  - intros i. unfold segments. by rewrite list_lookup_fmap.
  - intros i. unfold value_names. by rewrite list_lookup_fmap.
  - apply make_minimizators_segments.
  - apply make_minimizators_value_names.
Qed.

End Construction.

(** * Further properties of the code *)

Section Further.

Context {V : Type} (neg : V → V).
Context {St : Type} (unit_update : Z → string → St → V → V → St * V).

Implicit Types (m u : Minimizator St) (ms : list (Minimizator St)).
Implicit Types (w : World V) (sd : SurfaceData V) (D : list V).
Implicit Types (c d : loc) (self : MinimizatorsCollection V St).

(** A unit fit for a vector of length [n]: its channel is known and its
    index is valid for the vector and for the array of its channel. *)
Local Abbreviation fit sd n :=
  (λ u, known_channel (value_name u) ∧ in_range neg sd n u).

(** ** When [update] returns, and what it raises *)

(** The units before the first unfit one are processed without exception
    and leave a working copy of the same length. *)
Lemma update_loop_fit ms c sd w D :
  Forall (fit sd (length D)) ms →
  arrays w !! c = Some D →
  ∃ w' ms' D', update_loop neg unit_update ms c sd w = (w', (ms', Ok tt)) ∧
               arrays w' !! c = Some D' ∧ length D' = length D.
Proof.
  intros [Hn Hin]%Forall_and HD.
  destruct (update_loop_in_range neg unit_update ms _ _ _ _ Hn Hin HD)
    as (w' & ms' & Hloop).
  destruct (update_loop_inv _ _ _ _ _ _ _ _ _ _ HD Hloop)
    as (_ & _ & D' & HD' & Hlen & _).
  eauto 10.
Qed.

Lemma update_step_out_of_range m c sd w D :
  known_channel (value_name m) →
  ¬ in_range neg sd (length D) m →
  arrays w !! c = Some D →
  update_step neg unit_update m c sd w = (w, Raise IndexError).
Proof.
  intros Hn Hout HD. rewrite update_step_eq with (D := D) by done.
  destruct (selected_known neg _ sd Hn) as [values Hsel]. rewrite Hsel.
  destruct (getitem values (segment m - 1)) as [value|e] eqn:Hv.
  - destruct (py_index (length D) (segment m - 1)) as [k|] eqn:Hk; [|done].
    destruct Hout. split.
    + apply py_index_valid. eauto.
    + intros values' Hsel'. assert (values' = values) as -> by congruence.
      apply getitem_Ok in Hv as (kv & Hkv & _). apply py_index_valid. eauto.
  - by apply getitem_Raise in Hv as [-> _].
Qed.

(** X1. [update] returns exactly when every unit is fit: its channel is
    ['PtP'] or ['LAT'] and its index [segment - 1] is one Python accepts
    for the density vector and for the measurement array of its channel. *)
Theorem update_returns_iff_units_fit self d sd w D :
  arrays w !! d = Some D →
  (∃ r, returned (update neg unit_update self d sd w) = Ok r) ↔
  Forall (λ u, known_channel (value_name u) ∧ in_range neg sd (length D) u)
         (minimizators self).
Proof.
  intros HD. split.
  - intros [r Hr].
    destruct (update_returned _ _ _ _ _ _ _ Hr)
      as (D0 & w1 & w2 & ms & HD0 & _ & HD1 & Hloop & _).
    assert (D0 = D) as -> by congruence.
    eapply update_loop_Ok_fit; [exact HD1|exact Hloop].
  - intros Hfit.
    rewrite (update_unfold neg unit_update self _ sd _ _ _ (copy_eq _ _ _ HD)).
    edestruct (update_loop_fit (minimizators self)) as (w2 & ms' & D' & -> & _);
      [exact Hfit| |].
    + simpl. apply lookup_insert_eq.
    + simpl. eauto.
Qed.

(** X2. The first unfit unit in construction order decides the exception:
    [UnboundLocalError] when its channel is unknown, whatever its segment,
    and [IndexError] when its channel is known and its index is out of
    range; unfit units after it play no part. *)
Theorem first_unfit_unit_decides_exception self d sd w D pre m post :
  arrays w !! d = Some D →
  minimizators self = pre ++ m :: post →
  Forall (λ u, known_channel (value_name u) ∧ in_range neg sd (length D) u)
         pre →
  (¬ known_channel (value_name m) →
   returned (update neg unit_update self d sd w) = Raise UnboundLocalError) ∧
  (known_channel (value_name m) → ¬ in_range neg sd (length D) m →
   returned (update neg unit_update self d sd w) = Raise IndexError).
Proof.
  intros HD Hms Hpre.
  rewrite (update_unfold neg unit_update self _ sd _ _ _ (copy_eq _ _ _ HD)).
  rewrite Hms, update_loop_app.
  edestruct (update_loop_fit pre) as (w2 & pre' & D2 & -> & HD2 & Hlen);
    [exact Hpre| |].
  { simpl. apply lookup_insert_eq. }
  simpl. split.
  - intros Hn. by rewrite update_step_unknown.
  - intros Hn Hout. rewrite <-Hlen in Hout.
    by rewrite (update_step_out_of_range _ _ _ _ _ Hn Hout HD2).
Qed.

(** ** What an exception leaves behind *)

(** X3. When the loop raises at a unit, the units before it have been updated
    and have printed their lines; the unit that raised and the units after
    it are as they were, and nothing was printed or written for them. *)
Theorem exception_keeps_earlier_units_updated
    self d sd w w1 c pre m post w2 pre' w3 e :
  minimizators self = pre ++ m :: post →
  copy d w = (w1, Ok c) →
  update_loop neg unit_update pre c sd w1 = (w2, (pre', Ok tt)) →
  update_step neg unit_update m c sd w2 = (w3, Raise e) →
  update neg unit_update self d sd w =
  {| world_after := w2;
     self_after := {| density_step_tol := density_step_tol self;
                      minimizators := pre' ++ m :: post |};
     returned := Raise e |}.
Proof.
  intros Hms Hcopy Hpre Hstep.
  destruct (copy_Ok _ _ _ _ Hcopy) as (D & _ & _ & Hw1 & _).
  assert (HD1 : arrays w1 !! c = Some D).
  { rewrite Hw1. apply lookup_insert_eq. }
  destruct (update_loop_inv _ _ _ _ _ _ _ _ _ _ HD1 Hpre)
    as (_ & _ & D2 & HD2 & _).
  pose proof (update_step_Raise _ _ _ _ _ _ _ _ _ HD2 Hstep) as ->.
  rewrite (update_unfold neg unit_update self _ sd _ _ _ Hcopy).
  rewrite Hms, update_loop_app, Hpre. simpl. by rewrite Hstep.
Qed.

(** ** Segments that are not positive *)

Lemma py_index_negative (n : nat) (i : Z) (k : nat) :
  (i < 0)%Z → py_index n i = Some k → k = Z.to_nat (Z.of_nat n + i).
Proof.
  unfold py_index. intros Hi. repeat case_decide; intros [= <-]; lia.
Qed.

(** X4. A unit whose segment is [0] or negative does not raise as long as
    [segment - 1] is no less than minus the lengths: it reads the
    measurement array and the density vector counted from their ends, at
    position [length + segment - 1], and writes the new density there. *)
Theorem nonpositive_segment_counts_from_the_end m c sd w D w' m' :
  (segment m ≤ 0)%Z →
  arrays w !! c = Some D →
  update_step neg unit_update m c sd w = (w', Ok m') →
  ∃ values value density,
    selected neg (value_name m) sd = Some values ∧
    values !! Z.to_nat (Z.of_nat (length values) + (segment m - 1))
      = Some value ∧
    D !! Z.to_nat (Z.of_nat (length D) + (segment m - 1)) = Some density ∧
    m' = (Minimizator_update unit_update m density value).1 ∧
    arrays w' =
      <[c := <[Z.to_nat (Z.of_nat (length D) + (segment m - 1)) :=
                 (Minimizator_update unit_update m density value).2]> D]>
        (arrays w).
Proof.
  intros Hs HD Hstep.
  destruct (update_step_Ok _ _ _ _ _ _ _ _ _ HD Hstep)
    as (values & value & k & density & Hsel & Hval & Hk & Hd & Hm' & Hw').
  apply getitem_Ok in Hval as (kv & Hkv & Hval).
  apply py_index_negative in Hkv; [|lia]. subst kv.
  apply py_index_negative in Hk; [|lia]. subst k.
  exists values, value, density. rewrite Hw'. done.
Qed.

(** ** The standard output *)

Lemma reports_lines ms : ∀ (calls : list (V * V)),
  length calls = length ms →
  printed_segments (reports unit_update ms calls) = segment <$> ms ∧
  length (reports unit_update ms calls) = 3 * length ms.
Proof.
  induction ms as [|m rest IH]; intros [|call calls] Hlen; simpl in *;
    try done.
  destruct (IH calls) as [Hseg Hlines]; [lia|].
  unfold reports, printed_segments in *. simpl. split.
  - by rewrite Hseg.
  - rewrite Hlines. lia.
Qed.

(** A loop that ends without exception has printed the report of every
    unit, in order. *)
Lemma update_loop_Ok_reports ms : ∀ c sd w D w' ms',
  arrays w !! c = Some D →
  update_loop neg unit_update ms c sd w = (w', (ms', Ok tt)) →
  ∃ calls, length calls = length ms ∧
           stdout w' = stdout w ++ reports unit_update ms calls.
Proof.
  induction ms as [|m rest IH]; intros c sd w D w' ms' HD; simpl.
  - intros [= <- <-]. exists []. by rewrite app_nil_r.
  - destruct (update_step neg unit_update m c sd w) as [w1 [m'|e]] eqn:Hstep;
      [|done].
    destruct (update_step_Ok _ _ _ _ _ _ _ _ _ HD Hstep)
      as (values & value & k & density & _ & _ & _ & _ & _ & Hw1).
    set (new := (Minimizator_update unit_update m density value).2) in *.
    assert (HD1 : arrays w1 !! c = Some (<[k:=new]> D)).
    { subst w1. simpl. apply lookup_insert_eq. }
    destruct (update_loop neg unit_update rest c sd w1)
      as [w2 [rest' r]] eqn:Hloop.
    intros [= <- <- ->].
    destruct (IH _ _ _ _ _ _ HD1 Hloop) as (calls & Hlen & Hout).
    exists ((value, density) :: calls). split; [simpl; lia|].
    rewrite Hout. subst w1. unfold reports. simpl. by rewrite <-app_assoc.
Qed.

(** A loop that raises stopped at a unit: the units before it were
    processed, the unit raised in the world they left and left it as it
    was, and the units after it were not reached. *)
Lemma update_loop_Raise_split ms : ∀ c sd w D w' ms' e,
  arrays w !! c = Some D →
  update_loop neg unit_update ms c sd w = (w', (ms', Raise e)) →
  ∃ pre m post pre',
    ms = pre ++ m :: post ∧
    update_loop neg unit_update pre c sd w = (w', (pre', Ok tt)) ∧
    update_step neg unit_update m c sd w' = (w', Raise e) ∧
    ms' = pre' ++ m :: post.
Proof.
  induction ms as [|m rest IH]; intros c sd w D w' ms' e HD; simpl; [done|].
  destruct (update_step neg unit_update m c sd w) as [w1 [m'|e1]] eqn:Hstep.
  - destruct (update_step_Ok _ _ _ _ _ _ _ _ _ HD Hstep)
      as (values & value & k & density & _ & _ & _ & _ & _ & Hw1).
    assert (HD1 : arrays w1 !! c = Some
      (<[k:=(Minimizator_update unit_update m density value).2]> D)).
    { subst w1. simpl. apply lookup_insert_eq. }
    destruct (update_loop neg unit_update rest c sd w1)
      as [w2 [rest' r]] eqn:Hloop.
    intros [= <- <- ->].
    destruct (IH _ _ _ _ _ _ _ HD1 Hloop)
      as (pre & m0 & post & pre' & -> & Hpre & Hraise & ->).
    exists (m :: pre), m0, post, (m' :: pre').
    split; [done|]. split; [|done]. simpl. by rewrite Hstep, Hpre.
  - intros [= <- <- <-].
    pose proof (update_step_Raise _ _ _ _ _ _ _ _ _ HD Hstep) as ->.
    by exists [], m, rest, [].
Qed.

(** X5. A call of [update] appends to the standard output exactly the
    three-line reports of the units it processed, in construction order:
    of all units when it returns; when it raises, of the units before the
    one that raised, and nothing for that unit and the units after it. *)
Theorem update_prints_three_lines_per_unit self d sd w w1 c :
  copy d w = (w1, Ok c) →
  (∀ r, returned (update neg unit_update self d sd w) = Ok r →
     ∃ calls,
       length calls = length (minimizators self) ∧
       stdout (world_after (update neg unit_update self d sd w))
         = stdout w ++ reports unit_update (minimizators self) calls ∧
       printed_segments (reports unit_update (minimizators self) calls)
         = segments self ∧
       length (reports unit_update (minimizators self) calls)
         = 3 * length (minimizators self)) ∧
  (∀ e, returned (update neg unit_update self d sd w) = Raise e →
     ∃ pre m post calls w2 pre',
       minimizators self = pre ++ m :: post ∧
       update_loop neg unit_update pre c sd w1 = (w2, (pre', Ok tt)) ∧
       update_step neg unit_update m c sd w2 = (w2, Raise e) ∧
       length calls = length pre ∧
       stdout (world_after (update neg unit_update self d sd w))
         = stdout w ++ reports unit_update pre calls ∧
       printed_segments (reports unit_update pre calls) = segment <$> pre ∧
       length (reports unit_update pre calls) = 3 * length pre).
Proof.
  intros Hcopy.
  rewrite (update_unfold neg unit_update self _ sd _ _ _ Hcopy).
  destruct (copy_Ok _ _ _ _ Hcopy) as (D & _ & _ & Hw1 & Hout1).
  assert (HD1 : arrays w1 !! c = Some D).
  { rewrite Hw1. apply lookup_insert_eq. }
  destruct (update_loop neg unit_update (minimizators self) c sd w1)
    as [w2 [ms [[]|e0]]] eqn:Hloop; simpl; (split; [intros r Hr|intros e He]);
    try done.
  - destruct (update_loop_Ok_reports _ _ _ _ _ _ _ HD1 Hloop)
      as (calls & Hlen & Hout).
    destruct (reports_lines _ _ Hlen) as [Hseg Hlines].
    exists calls. by rewrite Hout, Hout1.
  - injection He as <-.
    destruct (update_loop_Raise_split _ _ _ _ _ _ _ _ HD1 Hloop)
      as (pre & m & post & pre' & Hms & Hpre & Hraise & _).
    destruct (update_loop_Ok_reports _ _ _ _ _ _ _ HD1 Hpre)
      as (calls & Hlen & Hout).
    destruct (reports_lines _ _ Hlen) as [Hseg Hlines].
    exists pre, m, post, calls, w2, pre'. by rewrite Hout, Hout1.
Qed.

(** ** Units on distinct segments *)

Lemma NoDup_segments_split pre m post :
  NoDup (segment <$> pre ++ m :: post) →
  Forall (λ u, segment u ≠ segment m) pre ∧
  Forall (λ u, segment u ≠ segment m) post.
Proof.
  rewrite fmap_app, fmap_cons, NoDup_app, NoDup_cons.
  intros (_ & Hpre & Hm & _). split; apply Forall_forall; intros u Hu Heq.
  - apply (Hpre (segment u)); [by apply list_elem_of_fmap_2|].
    rewrite Heq. by left.
  - apply Hm. rewrite <-Heq. by apply list_elem_of_fmap_2.
Qed.

(** With distinct segments, all at least 1, a unit of a loop that ends
    without exception read the density the loop started from and left its
    new density in the working copy. *)
Lemma update_loop_at_unit ms m c sd w D w' ms' :
  arrays w !! c = Some D →
  update_loop neg unit_update ms c sd w = (w', (ms', Ok tt)) →
  NoDup (segment <$> ms) →
  Forall (λ u, (1 ≤ segment u)%Z) ms →
  m ∈ ms →
  ∃ values value density D',
    selected neg (value_name m) sd = Some values ∧
    values !! Z.to_nat (segment m - 1) = Some value ∧
    D !! Z.to_nat (segment m - 1) = Some density ∧
    arrays w' !! c = Some D' ∧
    D' !! Z.to_nat (segment m - 1)
      = Some (Minimizator_update unit_update m density value).2.
Proof.
  intros HD Hloop Hnodup Hpos (pre & post & ->)%list_elem_of_split.
  destruct (NoDup_segments_split _ _ _ Hnodup) as [Hnpre Hnpost].
  apply Forall_app in Hpos as [Hppre [Hm Hppost]%Forall_cons].
  destruct (update_loop_split _ _ _ _ _ _ _ _ _ _ _ HD Hloop)
    as (w2 & pre' & D2 & _ & _ & _ & w3 & m' & post'
        & _ & Hstep & HD2 & Hlen & Hkeep & _ & _ & _ & _ & Hpost).
  destruct (update_step_Ok _ _ _ _ _ _ _ _ _ HD2 Hstep)
    as (values & value & k & density & Hsel & Hval & Hk & Hd & _ & Hw3).
  apply getitem_Ok in Hval as (kv & Hkv & Hval).
  pose proof (py_index_segment _ _ _ Hm Hkv) as Hkv'. subst kv.
  pose proof (py_index_lt _ _ _ Hk) as Hlt.
  pose proof (py_index_segment _ _ _ Hm Hk) as Hk'. subst k.
  set (new := (Minimizator_update unit_update m density value).2) in *.
  assert (HD3 : arrays w3 !! c = Some (<[Z.to_nat (segment m - 1) := new]> D2)).
  { subst w3. simpl. apply lookup_insert_eq. }
  destruct (update_loop_inv _ _ _ _ _ _ _ _ _ _ HD3 Hpost)
    as (_ & _ & D' & HD' & _ & Hkeep').
  exists values, value, density, D'.
  split; [done|]. split; [done|]. split.
  - rewrite <-Hkeep; [done|]. by apply other_segments_elsewhere.
  - split; [done|]. rewrite Hkeep'.
    + by apply list_lookup_insert_eq.
    + by apply other_segments_elsewhere.
Qed.

(** X6. When no two units share a segment (segments at least 1), every unit's
    [update] receives the value the caller's vector holds for its segment,
    and the returned vector holds the density that call returned. *)
Theorem distinct_segments_read_the_input self d sd w D out m :
  arrays w !! d = Some D →
  NoDup (segments self) →
  Forall (λ u, (1 ≤ segment u)%Z) (minimizators self) →
  output (update neg unit_update self d sd w) = Ok out →
  m ∈ minimizators self →
  ∃ values value density,
    selected neg (value_name m) sd = Some values ∧
    values !! Z.to_nat (segment m - 1) = Some value ∧
    D !! Z.to_nat (segment m - 1) = Some density ∧
    out !! Z.to_nat (segment m - 1)
      = Some (Minimizator_update unit_update m density value).2.
Proof.
  intros HD Hnodup Hpos Hout Hm.
  destruct (update_output _ _ _ _ _ _ _ Hout)
    as (D0 & w1 & c & w2 & ms' & HD0 & _ & HD1 & Hloop & Hc).
  assert (D0 = D) as -> by congruence.
  destruct (update_loop_at_unit _ _ _ _ _ _ _ _ HD1 Hloop Hnodup Hpos Hm)
    as (values & value & density & D' & Hsel & Hval & Hd & HD' & Hnew).
  assert (D' = out) as -> by congruence.
  by exists values, value, density.
Qed.

Lemma Forall_perm {A : Type} (P : A → Prop) (l k : list A) :
  l ≡ₚ k → Forall P l → Forall P k.
Proof.
  intros Hperm. rewrite !Forall_forall. intros Hl x Hx.
  apply Hl. by rewrite Hperm.
Qed.

Lemma unaddressed_position ms (n i : nat) :
  Forall (λ u, (1 ≤ segment u)%Z) ms →
  Forall (λ u, Z.to_nat (segment u - 1) ≠ i) ms →
  Forall (λ u, py_index n (segment u - 1) ≠ Some i) ms.
Proof.
  rewrite !Forall_forall. intros Hpos Hne u Hu Hk.
  apply py_index_segment in Hk; [|by apply Hpos].
  by apply (Hne u Hu).
Qed.

(** X7. When no two units share a segment (segments at least 1), the returned
    vector does not depend on the order of the units: a collection with
    the same units in another order, called on a vector with the same
    contents, returns the same contents. *)
Theorem distinct_segments_order_irrelevant
    self1 self2 d1 d2 sd w1 w2 D out :
  minimizators self1 ≡ₚ minimizators self2 →
  NoDup (segments self1) →
  Forall (λ u, (1 ≤ segment u)%Z) (minimizators self1) →
  arrays w1 !! d1 = Some D →
  arrays w2 !! d2 = Some D →
  output (update neg unit_update self1 d1 sd w1) = Ok out →
  output (update neg unit_update self2 d2 sd w2) = Ok out.
Proof.
  intros Hperm Hnodup1 Hpos1 HD1 HD2 Hout.
  destruct (update_output _ _ _ _ _ _ _ Hout)
    as (D0 & v1 & c1 & v1' & ms1' & HD0 & _ & Hc1 & Hloop1 & Hout1).
  assert (D0 = D) as -> by congruence.
  pose proof (update_loop_Ok_fit _ _ _ _ _ _ _ _ _ Hc1 Hloop1) as Hfit1.
  pose proof (Forall_perm _ _ _ Hperm Hfit1) as Hfit2.
  pose proof (Forall_perm _ _ _ Hperm Hpos1) as Hpos2.
  assert (Hnodup2 : NoDup (segment <$> minimizators self2)).
  { unfold segments in Hnodup1. by rewrite <-Hperm. }
  rewrite (update_unfold neg unit_update self2 _ sd _ _ _ (copy_eq _ _ _ HD2)).
  set (c2 := fresh (dom (arrays w2))).
  set (v2 := {| arrays := <[c2:=D]> (arrays w2); stdout := stdout w2 |}).
  assert (Hc2 : arrays v2 !! c2 = Some D) by apply lookup_insert_eq.
  destruct (update_loop_fit _ _ _ _ _ Hfit2 Hc2)
    as (v2' & ms2' & out2 & Hloop2 & Hout2 & _).
  rewrite Hloop2. unfold output. simpl. rewrite Hout2. f_equal.
  destruct (update_loop_inv _ _ _ _ _ _ _ _ _ _ Hc1 Hloop1)
    as (_ & _ & out1' & Hout1' & _ & Hkeep1).
  assert (out1' = out) as -> by congruence.
  destruct (update_loop_inv _ _ _ _ _ _ _ _ _ _ Hc2 Hloop2)
    as (_ & _ & out2' & Hout2' & _ & Hkeep2).
  assert (out2' = out2) as -> by congruence.
  apply list_eq. intros i.
  destruct (decide (Exists (λ u, Z.to_nat (segment u - 1) = i)
                           (minimizators self1))) as [Hex|Hnex].
  - apply Exists_exists in Hex as (m & Hm1 & <-).
    assert (Hm2 : m ∈ minimizators self2) by by rewrite <-Hperm.
    destruct (update_loop_at_unit _ _ _ _ _ _ _ _ Hc1 Hloop1 Hnodup1 Hpos1 Hm1)
      as (values & value & density & o1 & Hsel & Hval & Hd & Ho1 & Hnew1).
    destruct (update_loop_at_unit _ _ _ _ _ _ _ _ Hc2 Hloop2 Hnodup2 Hpos2 Hm2)
      as (values' & value' & density' & o2 & Hsel' & Hval' & Hd'
          & Ho2 & Hnew2).
    assert (o1 = out) as -> by congruence.
    assert (o2 = out2) as -> by congruence.
    rewrite Hnew1, Hnew2. congruence.
  - apply not_Exists_Forall in Hnex; [|intros u; apply _].
    rewrite Hkeep1, Hkeep2; [done| |].
    + apply unaddressed_position; [done|]. by apply (Forall_perm _ _ _ Hperm).
    + by apply unaddressed_position.
Qed.

(** ** The tolerance *)

(** X8. [density_step_tol] plays no part in [update]: two collections with the
    same units and different tolerances leave the same world, return the
    same result and leave the same units, and the call keeps the
    tolerance. *)
Theorem tolerance_plays_no_part self1 self2 d sd w :
  minimizators self1 = minimizators self2 →
  world_after (update neg unit_update self1 d sd w)
    = world_after (update neg unit_update self2 d sd w) ∧
  returned (update neg unit_update self1 d sd w)
    = returned (update neg unit_update self2 d sd w) ∧
  minimizators (self_after (update neg unit_update self1 d sd w))
    = minimizators (self_after (update neg unit_update self2 d sd w)) ∧
  density_step_tol (self_after (update neg unit_update self1 d sd w))
    = density_step_tol self1.
Proof.
  intros Hms. unfold update. rewrite <-Hms.
  destruct (copy d w) as [w1 [c|e]]; [|done].
  by destruct (update_loop neg unit_update (minimizators self1) c sd w1)
    as [w2 [ms r]].
Qed.

End Further.

Section FurtherConstruction.

Context {V : Type} (neg : V → V).
Context {St : Type} (unit_update : Z → string → St → V → V → St * V).
Context (tol_default : V) (unit_init : Z → string → St).

(** X9. Built from sequences of equal length, the collection gives the two
    sequences back through [segments] and [value_names]. *)
Theorem construction_round_trip
    (segs : list Z) (names : list string) (tol : option V) :
  length segs = length names →
  segments (init tol_default unit_init segs names tol) = segs ∧
  value_names (init tol_default unit_init segs names tol) = names.
Proof.
  intros Hlen. unfold segments, value_names, init. simpl.
  rewrite make_minimizators_segments, make_minimizators_value_names.
  split; apply take_ge; lia.
Qed.

(** X10. Built from an empty sequence of segments or of channel tags, whatever
    the other sequence holds, the collection has no unit: [update] returns
    a copy of the caller's vector and prints nothing. *)
Theorem empty_construction_copies
    (segs : list Z) (names : list string) (tol : option V)
    (d : loc) (sd : SurfaceData V) (w : World V) (D : list V) :
  segs = [] ∨ names = [] →
  arrays w !! d = Some D →
  let built := init tol_default unit_init segs names tol in
  minimizators built = [] ∧
  output (update neg unit_update built d sd w) = Ok D ∧
  stdout (world_after (update neg unit_update built d sd w)) = stdout w.
Proof.
  intros Hempty HD built.
  assert (Hms : minimizators built = []).
  { unfold built, init. simpl. rewrite make_minimizators_eq.
    destruct Hempty as [-> | ->]; [done|]. by destruct segs. }
  split; [done|].
  rewrite (update_unfold neg unit_update built _ sd _ _ _ (copy_eq _ _ _ HD)).
  rewrite Hms. simpl. unfold output. simpl.
  by rewrite lookup_insert_eq.
Qed.

End FurtherConstruction.

(** * The statements at concrete inputs *)

Section Examples.

Import Sample.

Local Open Scope Z_scope.

(** The example of the specification, scaled to integers: segments
    [[1; 2]], channels [['PtP'; 'LAT']], densities [[5; 5]],
    [ptp = [12; 0]], [lat = [0; 8]]. *)
Example update_two_units :
  output (update Z.opp adder two_units 1%positive surface world)
  = Ok [17; -3].
Proof. reflexivity. Qed.

Example update_two_units_prints :
  stdout (world_after (update Z.opp adder two_units 1%positive surface world))
  = [SegmentLine 1; ValueLine "PtP" 12; DensityLine 5 17;
     SegmentLine 2; ValueLine "LAT" (-8); DensityLine 5 (-3)].
Proof. reflexivity. Qed.

(** Segment [0] is index [-1], the last position of the arrays. *)
Example update_segment_zero :
  output (update Z.opp adder segment_zero 1%positive surface world)
  = Ok [5; -3].
Proof. reflexivity. Qed.

(** The PtP unit receives [12], the LAT unit [-8]. *)
Lemma sign_convention_witness :
  update_minimizator Z.opp adder lat_unit 1%positive surface world
  = ({| arrays := arrays world;
        stdout := [SegmentLine 2; ValueLine "LAT" (-8); DensityLine 5 (-3)] |},
     Ok ({| segment := 2; value_name := "LAT"; calib := 1%nat |}, (5, -3))) ∧
  update_minimizator Z.opp adder ptp_unit 1%positive surface world
  = ({| arrays := arrays world;
        stdout := [SegmentLine 1; ValueLine "PtP" 12; DensityLine 5 17] |},
     Ok ({| segment := 1; value_name := "PtP"; calib := 1%nat |}, (5, 17))).
Proof.
  split.
  - apply (sign_convention Z.opp adder lat_unit 1%positive surface world
             [5; 5] 5 8); reflexivity.
  - apply (sign_convention Z.opp adder ptp_unit 1%positive surface world
             [5; 5] 5 12); reflexivity.
Defined.

Lemma update_does_not_mutate_input_witness :
  arrays (world_after (update Z.opp adder two_units 1%positive surface world))
    !! 1%positive = Some [5; 5].
Proof.
  exact (proj1 (update_does_not_mutate_input Z.opp adder two_units 1%positive
                  surface world [5; 5] eq_refl)).
Defined.

Lemma unmanaged_segments_pass_through_witness :
  length [17; 5] = length [5; 5] ∧
  ∀ s, 1 ≤ s → s ∉ segments one_unit →
       [17; 5] !! Z.to_nat (s - 1) = [5; 5] !! Z.to_nat (s - 1).
Proof.
  apply (unmanaged_segments_pass_through Z.opp adder one_unit 1%positive
           surface world [5; 5] [17; 5]).
  - reflexivity.
  - repeat constructor. simpl. lia.
  - reflexivity.
Defined.

Lemma last_unit_wins_witness :
  ∃ density density_new,
    produced Z.opp adder [ptp_unit] ptp_unit 2%positive surface
      (copy 1%positive world).1 = Ok (density, density_new) ∧
    [29; 5] !! Z.to_nat (segment ptp_unit - 1) = Some density_new.
Proof.
  apply (last_unit_wins Z.opp adder shared_segment 1%positive surface world
           (copy 1%positive world).1 2%positive [ptp_unit] ptp_unit []
           [29; 5]).
  - reflexivity.
  - repeat constructor; simpl; lia.
  - constructor.
  - reflexivity.
  - reflexivity.
Defined.

Lemma later_unit_reads_earlier_result_witness :
  ∃ density1 new1 value2,
    produced Z.opp adder [] ptp_unit 2%positive surface
      (copy 1%positive world).1 = Ok (density1, new1) ∧
    produced Z.opp adder ([] ++ ptp_unit :: []) ptp_unit 2%positive surface
      (copy 1%positive world).1
    = Ok (new1, (Minimizator_update adder ptp_unit new1 value2).2).
Proof.
  apply (later_unit_reads_earlier_result Z.opp adder shared_segment
           1%positive surface world (copy 1%positive world).1 2%positive
           [] ptp_unit [] ptp_unit [] [29; 5]).
  - reflexivity.
  - repeat constructor; simpl; lia.
  - reflexivity.
  - constructor.
  - reflexivity.
  - reflexivity.
Defined.

(** On the shared segment the second unit starts from [17], the first
    unit's result, not from the caller's [5]. *)
Example shared_segment_second_unit :
  produced Z.opp adder [ptp_unit] ptp_unit 2%positive surface
    (copy 1%positive world).1 = Ok (17, 29).
Proof. reflexivity. Qed.

Lemma unit_accesses_position_segment_minus_one_witness :
  ∃ values value density,
    selected Z.opp (value_name lat_unit) surface = Some values ∧
    values !! Z.to_nat (segment lat_unit - 1) = Some value ∧
    [5; 5] !! Z.to_nat (segment lat_unit - 1) = Some density ∧
    (update_minimizator Z.opp adder lat_unit 1%positive surface world).2
      = Ok ((Minimizator_update adder lat_unit density value).1,
            (density, (Minimizator_update adder lat_unit density value).2)) ∧
    {| segment := 2; value_name := "LAT"; calib := 1%nat |}
      = (Minimizator_update adder lat_unit density value).1 ∧
    arrays (update_step Z.opp adder lat_unit 1%positive surface world).1 =
      <[1%positive := <[Z.to_nat (segment lat_unit - 1) :=
                 (Minimizator_update adder lat_unit density value).2]> [5; 5]]>
        (arrays world).
Proof.
  apply (unit_accesses_position_segment_minus_one Z.opp adder lat_unit
           1%positive surface world [5; 5]).
  - simpl. lia.
  - reflexivity.
  - reflexivity.
Defined.

(** One pass of the loop body for the LAT unit on segment 2 changes
    position 1 of the vector and nothing else. *)
Example update_step_lat_unit :
  arrays (update_step Z.opp adder lat_unit 1%positive surface world).1
    !! 1%positive = Some [5; -3].
Proof. reflexivity. Qed.

(** Every channel is known, and [update] raises: segment 5 is out of range
    for a vector of length 2. *)
Lemma known_channels_do_not_exclude_IndexError :
  ¬ (Forall known_channel (value_names far_segment) →
     ∃ r, returned (update Z.opp adder far_segment 1%positive surface world)
          = Ok r).
Proof.
  intros Hclaim. destruct Hclaim as [r Hr].
  - change (Forall known_channel ["PtP"]%string).
    constructor; [left; reflexivity|constructor].
  - discriminate Hr.
Qed.

Example update_far_segment :
  returned (update Z.opp adder far_segment 1%positive surface world)
  = Raise IndexError.
Proof. reflexivity. Qed.

Lemma unknown_channel_raises_known_in_range_returns_witness :
  returned (update Z.opp adder unknown_tag 1%positive surface world)
    = Raise UnboundLocalError ∧
  (∃ r, returned (update Z.opp adder two_units 1%positive surface world)
        = Ok r) ∧
  returned (update Z.opp adder far_segment 1%positive surface world)
    = Raise IndexError.
Proof.
  split; [|split].
  - destruct (unknown_channel_raises_known_in_range_returns Z.opp adder
                unknown_tag 1%positive surface world) as (_ & Hraise & _).
    apply (Hraise [ptp_unit]
                  {| segment := 2; value_name := "APD"; calib := 0%nat |} []
                  (copy 1%positive world).1 2%positive
                  (update_step Z.opp adder ptp_unit 2%positive surface
                     (copy 1%positive world).1).1
                  [{| segment := 1; value_name := "PtP"; calib := 1%nat |}]).
    + reflexivity.
    + intros [Hn | Hn]; discriminate Hn.
    + reflexivity.
    + reflexivity.
  - destruct (unknown_channel_raises_known_in_range_returns Z.opp adder
                two_units 1%positive surface world) as (_ & _ & _ & Hok & _).
    apply (Hok [5; 5]).
    + change (Forall known_channel ["PtP"; "LAT"]%string).
      constructor; [left; reflexivity|].
      constructor; [right; reflexivity|]. constructor.
    + reflexivity.
    + change (Forall (in_range Z.opp surface 2) [ptp_unit; lat_unit]).
      assert (Hin : ∀ m, m = ptp_unit ∨ m = lat_unit →
                         in_range Z.opp surface 2 m).
      { intros m [-> | ->]; (split; [unfold valid_index; simpl; lia|]);
          intros values [= <-]; unfold valid_index; simpl; lia. }
      constructor; [apply Hin; by left|].
      constructor; [apply Hin; by right|]. constructor.
  - destruct (unknown_channel_raises_known_in_range_returns Z.opp adder
                far_segment 1%positive surface world) as (_ & _ & _ & _ & Hidx).
    apply (Hidx [5; 5]).
    + change (Forall known_channel ["PtP"]%string).
      constructor; [left; reflexivity|constructor].
    + reflexivity.
    + change (¬ Forall (in_range Z.opp surface 2) [far_unit]).
      intros Hall. apply Forall_cons in Hall as [[Hv _] _].
      unfold valid_index in Hv. simpl in Hv. lia.
Defined.

Lemma make_minimizators_pairs_in_order_witness :
  length (make_minimizators fresh_unit [1; 2; 3] ["PtP"; "LAT"]%string)
    = 2%nat ∧
  make_minimizators fresh_unit [1; 2; 3] ["PtP"; "LAT"]%string !! 1%nat
    = Some (new_Minimizator fresh_unit 2 "LAT").
Proof.
  destruct (make_minimizators_pairs_in_order fresh_unit [1; 2; 3]
              ["PtP"; "LAT"]%string) as (Hlen & Hnth & _).
  split.
  - exact Hlen.
  - apply Hnth; reflexivity.
Defined.

(** Three segments and two channel tags build two units. *)
Example make_minimizators_truncates :
  make_minimizators fresh_unit [1; 2; 3] ["PtP"; "LAT"]%string
  = [ptp_unit; lat_unit].
Proof. reflexivity. Qed.

Lemma adder_deterministic : deterministic_unit adder.
Proof. intros s name st1 st2 density value. reflexivity. Qed.

Lemma update_deterministic_across_calls_witness :
  let first := update Z.opp adder two_units 1%positive surface world in
  output (update Z.opp adder (self_after first) 1%positive surface
            (world_after first))
  = output first.
Proof.
  exact (proj1 (update_deterministic_across_calls Z.opp adder two_units
                  1%positive surface world [5; 5]
                  adder_deterministic eq_refl)).
Defined.

(** A unit whose result depends on its internal state: the second call
    differs from the first. *)
Example drifting_not_deterministic : ¬ deterministic_unit drifting.
Proof. intros Hdet. specialize (Hdet 1 "PtP"%string 0%nat 1%nat 0 0). done. Qed.

Example drifting_second_call_differs :
  let first := update Z.opp drifting two_units 1%positive surface world in
  output first = Ok [17; -3] ∧
  output (update Z.opp drifting (self_after first) 1%positive surface
            (world_after first)) = Ok [18; -2].
Proof. split; reflexivity. Qed.

(** ** The further properties at concrete inputs *)

Lemma ptp_unit_fit :
  known_channel (value_name ptp_unit) ∧ in_range Z.opp surface 2 ptp_unit.
Proof.
  split; [by left|]. split; [unfold valid_index; simpl; lia|].
  intros values [= <-]. unfold valid_index. simpl. lia.
Qed.

Lemma lat_unit_fit :
  known_channel (value_name lat_unit) ∧ in_range Z.opp surface 2 lat_unit.
Proof.
  split; [by right|]. split; [unfold valid_index; simpl; lia|].
  intros values [= <-]. unfold valid_index. simpl. lia.
Qed.

Lemma update_returns_iff_units_fit_witness :
  (∃ r, returned (update Z.opp adder two_units 1%positive surface world)
        = Ok r) ↔
  Forall (λ u, known_channel (value_name u) ∧
               in_range Z.opp surface (length [5; 5]) u)
         (minimizators two_units).
Proof.
  exact (update_returns_iff_units_fit Z.opp adder two_units 1%positive
           surface world [5; 5] eq_refl).
Defined.

Lemma first_unfit_unit_decides_exception_witness :
  returned (update Z.opp adder second_far 1%positive surface world)
    = Raise IndexError ∧
  returned (update Z.opp adder unknown_tag 1%positive surface world)
    = Raise UnboundLocalError.
Proof.
  assert (Hpre : Forall (λ u, known_channel (value_name u) ∧
                              in_range Z.opp surface (length [5; 5]) u)
                        [ptp_unit]).
  { constructor; [exact ptp_unit_fit|constructor]. }
  split.
  - apply (first_unfit_unit_decides_exception Z.opp adder second_far
             1%positive surface world [5; 5] [ptp_unit] far_unit []
             eq_refl eq_refl Hpre).
    + by left.
    + intros [Hv _]. unfold valid_index in Hv. simpl in Hv. lia.
  - apply (first_unfit_unit_decides_exception Z.opp adder unknown_tag
             1%positive surface world [5; 5] [ptp_unit] apd_unit []
             eq_refl eq_refl Hpre).
    intros [Hn | Hn]; discriminate Hn.
Defined.

Lemma exception_keeps_earlier_units_updated_witness :
  update Z.opp adder unknown_tag 1%positive surface world =
  {| world_after :=
       (update_loop Z.opp adder [ptp_unit] 2%positive surface
          (copy 1%positive world).1).1;
     self_after :=
       {| density_step_tol := 1;
          minimizators :=
            [{| segment := 1; value_name := "PtP"; calib := 1%nat |}]
            ++ apd_unit :: [] |};
     returned := Raise UnboundLocalError |}.
Proof.
  apply (exception_keeps_earlier_units_updated Z.opp adder unknown_tag
           1%positive surface world (copy 1%positive world).1 2%positive
           [ptp_unit] apd_unit []
           (update_loop Z.opp adder [ptp_unit] 2%positive surface
              (copy 1%positive world).1).1
           [{| segment := 1; value_name := "PtP"; calib := 1%nat |}]
           (update_loop Z.opp adder [ptp_unit] 2%positive surface
              (copy 1%positive world).1).1
           UnboundLocalError); reflexivity.
Defined.

(** After the exception the first unit has been called once and has
    printed; the unit with the unknown tag has not. *)
Example unknown_tag_leaves_first_unit_updated :
  calib <$> minimizators
    (self_after (update Z.opp adder unknown_tag 1%positive surface world))
    = [1%nat; 0%nat] ∧
  stdout (world_after (update Z.opp adder unknown_tag 1%positive surface world))
    = [SegmentLine 1; ValueLine "PtP" 12; DensityLine 5 17].
Proof. split; reflexivity. Qed.

Lemma nonpositive_segment_counts_from_the_end_witness :
  ∃ values value density,
    selected Z.opp (value_name zero_unit) surface = Some values ∧
    values !! Z.to_nat (Z.of_nat (length values) + (segment zero_unit - 1))
      = Some value ∧
    [5; 5] !! Z.to_nat (Z.of_nat (length [5; 5]) + (segment zero_unit - 1))
      = Some density ∧
    {| segment := 0; value_name := "LAT"; calib := 1%nat |}
      = (Minimizator_update adder zero_unit density value).1 ∧
    arrays (update_step Z.opp adder zero_unit 1%positive surface world).1 =
      <[1%positive :=
          <[Z.to_nat (Z.of_nat (length [5; 5]) + (segment zero_unit - 1)) :=
              (Minimizator_update adder zero_unit density value).2]> [5; 5]]>
        (arrays world).
Proof.
  apply (nonpositive_segment_counts_from_the_end Z.opp adder zero_unit
           1%positive surface world [5; 5]).
  - simpl. lia.
  - reflexivity.
  - reflexivity.
Defined.

Lemma update_prints_three_lines_per_unit_witness :
  (∃ calls,
     length calls = length (minimizators two_units) ∧
     stdout (world_after (update Z.opp adder two_units 1%positive surface world))
       = stdout world ++ reports adder (minimizators two_units) calls ∧
     printed_segments (reports adder (minimizators two_units) calls)
       = segments two_units ∧
     length (reports adder (minimizators two_units) calls)
       = (3 * length (minimizators two_units))%nat) ∧
  (∃ pre m post calls w2 pre',
     minimizators unknown_tag = pre ++ m :: post ∧
     update_loop Z.opp adder pre 2%positive surface (copy 1%positive world).1
       = (w2, (pre', Ok tt)) ∧
     update_step Z.opp adder m 2%positive surface w2
       = (w2, Raise UnboundLocalError) ∧
     length calls = length pre ∧
     stdout (world_after
               (update Z.opp adder unknown_tag 1%positive surface world))
       = stdout world ++ reports adder pre calls ∧
     printed_segments (reports adder pre calls) = segment <$> pre ∧
     length (reports adder pre calls) = (3 * length pre)%nat).
Proof.
  split.
  - apply (proj1 (update_prints_three_lines_per_unit Z.opp adder two_units
                    1%positive surface world (copy 1%positive world).1
                    2%positive eq_refl) 2%positive).
    reflexivity.
  - apply (proj2 (update_prints_three_lines_per_unit Z.opp adder unknown_tag
                    1%positive surface world (copy 1%positive world).1
                    2%positive eq_refl) UnboundLocalError).
    reflexivity.
Defined.

(** What the call on the unknown tag printed: the report of the first
    unit, called with the measured value 12 and the density 5. *)
Example unknown_tag_prints_first_report :
  stdout (world_after (update Z.opp adder unknown_tag 1%positive surface world))
  = reports adder [ptp_unit] [(12, 5)].
Proof. reflexivity. Qed.

Lemma two_units_distinct : NoDup (segments two_units).
Proof.
  change (NoDup [1; 2]).
  apply NoDup_cons_2; [|apply NoDup_cons_2; [|apply NoDup_nil_2]].
  - intros Hin. apply list_elem_of_singleton in Hin. discriminate Hin.
  - apply not_elem_of_nil.
Qed.

Lemma two_units_positive :
  Forall (λ u : Minimizator nat, 1 ≤ segment u) (minimizators two_units).
Proof.
  change (Forall (λ u : Minimizator nat, 1 ≤ segment u) [ptp_unit; lat_unit]).
  repeat constructor; simpl; lia.
Qed.

Lemma distinct_segments_read_the_input_witness :
  ∃ values value density,
    selected Z.opp (value_name lat_unit) surface = Some values ∧
    values !! Z.to_nat (segment lat_unit - 1) = Some value ∧
    [5; 5] !! Z.to_nat (segment lat_unit - 1) = Some density ∧
    [17; -3] !! Z.to_nat (segment lat_unit - 1)
      = Some (Minimizator_update adder lat_unit density value).2.
Proof.
  apply (distinct_segments_read_the_input Z.opp adder two_units 1%positive
           surface world [5; 5] [17; -3] lat_unit eq_refl
           two_units_distinct two_units_positive eq_refl).
  change (lat_unit ∈ [ptp_unit; lat_unit]).
  apply list_elem_of_further, list_elem_of_here.
Defined.

Lemma distinct_segments_order_irrelevant_witness :
  output (update Z.opp adder two_units_swapped 1%positive surface world)
  = Ok [17; -3].
Proof.
  apply (distinct_segments_order_irrelevant Z.opp adder two_units
           two_units_swapped 1%positive 1%positive surface world world
           [5; 5] [17; -3]).
  - change ([ptp_unit; lat_unit] ≡ₚ [lat_unit; ptp_unit]). apply perm_swap.
  - exact two_units_distinct.
  - exact two_units_positive.
  - reflexivity.
  - reflexivity.
  - reflexivity.
Defined.

(** The order of the units still shows in the standard output. *)
Example swapped_units_print_in_their_order :
  printed_segments
    (stdout (world_after
       (update Z.opp adder two_units_swapped 1%positive surface world)))
  = [2; 1].
Proof. reflexivity. Qed.

Lemma tolerance_plays_no_part_witness :
  let other := {| density_step_tol := 7; minimizators := minimizators two_units |} in
  world_after (update Z.opp adder two_units 1%positive surface world)
    = world_after (update Z.opp adder other 1%positive surface world) ∧
  returned (update Z.opp adder two_units 1%positive surface world)
    = returned (update Z.opp adder other 1%positive surface world) ∧
  minimizators (self_after (update Z.opp adder two_units 1%positive surface world))
    = minimizators (self_after (update Z.opp adder other 1%positive surface world)) ∧
  density_step_tol
    (self_after (update Z.opp adder two_units 1%positive surface world))
    = density_step_tol two_units.
Proof.
  exact (tolerance_plays_no_part Z.opp adder two_units
           {| density_step_tol := 7; minimizators := minimizators two_units |}
           1%positive surface world eq_refl).
Defined.

Lemma construction_round_trip_witness :
  segments (init 1 fresh_unit [1; 2] ["PtP"; "LAT"]%string None) = [1; 2] ∧
  value_names (init 1 fresh_unit [1; 2] ["PtP"; "LAT"]%string None)
    = ["PtP"; "LAT"]%string.
Proof.
  exact (construction_round_trip 1 fresh_unit [1; 2] ["PtP"; "LAT"]%string
           None eq_refl).
Defined.

Lemma empty_construction_copies_witness :
  minimizators (init 1 fresh_unit [] ["PtP"; "LAT"]%string None) = [] ∧
  output (update Z.opp adder
            (init 1 fresh_unit [] ["PtP"; "LAT"]%string None)
            1%positive surface world) = Ok [5; 5] ∧
  stdout (world_after
            (update Z.opp adder
               (init 1 fresh_unit [] ["PtP"; "LAT"]%string None)
               1%positive surface world)) = stdout world.
Proof.
  apply (empty_construction_copies Z.opp adder 1 fresh_unit []
           ["PtP"; "LAT"]%string None 1%positive surface world [5; 5]).
  - by left.
  - reflexivity.
Defined.

End Examples.
